(** * vital.py: grouping patient records by normalised name

    A shallow embedding of [src/vital.py] and the properties of its
    functions [createKey], [createDictionary], [printOutput],
    [extractNumber], [sortDictbyPidDesc] and [main].

    Modelling conventions.
    - A Python [str] is a [string]; a character is a code point below 256
      (the Latin-1 range), so the built-ins [str.lower], [str.split] and
      [int] are modelled on that range.
    - A csv row is a [list string]; the value read from the file is a
      [list row].
    - A [dict] is an association list in insertion order, which is the
      order [dict.items()] and [dict.values()] iterate in.
    - A raised exception is the [Raise] branch of [result]; the output
      is the list of the strings printed, one for each call of [print],
      threaded through a small output-and-error monad.
    - [int] is modelled with the interpreter's default limit of 4300
      digits for a literal. *)

From Stdlib Require Import List String Ascii ZArith Lia Bool Arith.
From Stdlib Require Import Permutation Sorted DecimalString.
Import ListNotations.

Local Open Scope string_scope.
Local Open Scope list_scope.

(** ** Exceptions and results *)

Inductive exn : Type :=
| Exception (msg : string)   (* [raise Exception(msg)] in [createKey] *)
| IndexError                 (* list index out of range *)
| KeyError (key : string)    (* missing dictionary key *)
| ValueError.                (* invalid literal for [int()] *)

Inductive result (A : Type) : Type :=
| Ok (a : A)
| Raise (e : exn).

Arguments Ok {A} a.
Arguments Raise {A} e.

Definition bind {A B : Type} (r : result A) (k : A -> result B) : result B :=
  match r with
  | Ok a => k a
  | Raise e => Raise e
  end.

Declare Scope py_scope.
Delimit Scope py_scope with py.
Notation "x <- c1 ;; c2" := (bind c1 (fun x => c2))
  (at level 61, c1 at next level, right associativity) : py_scope.
Local Open Scope py_scope.

Definition raises {A : Type} (r : result A) : Prop :=
  exists e, r = Raise e.

(** A csv row and the data read from the input file. *)
Definition row : Type := list string.

(** ** Built-ins of the language used by the program *)

Module Py.

(** [str.lower] on one code point below 256: the capital letters A-Z and
    the capital Latin-1 letters 0xC0-0xDE (but not the multiplication
    sign 0xD7) move up by 32; everything else stays.  On this range the
    lower case of a character does not depend on its neighbours, as it
    does for some characters above it. *)
Definition lower_char (c : ascii) : ascii :=
  let n := nat_of_ascii c in
  if (((65 <=? n) && (n <=? 90))
      || ((192 <=? n) && (n <=? 222) && negb (n =? 215)))%nat
  then ascii_of_nat (n + 32)
  else c.

Fixpoint lower (s : string) : string :=
  match s with
  | EmptyString => EmptyString
  | String c s' => String (lower_char c) (lower s')
  end.

(** [s.split(sep)] for a separator of one character: the pieces between
    the occurrences of [sep]; there is always at least one piece. *)
Fixpoint split (sep : ascii) (s : string) : list string :=
  match s with
  | EmptyString => [EmptyString]
  | String c s' =>
      if Ascii.eqb c sep then EmptyString :: split sep s'
      else match split sep s' with
           | p :: ps => String c p :: ps
           | [] => [String c EmptyString]
           end
  end.

(** [l[i]]: indexing a list, [IndexError] when out of range. *)
Definition getitem {A : Type} (l : list A) (i : nat) : result A :=
  match nth_error l i with
  | Some a => Ok a
  | None => Raise IndexError
  end.

(** [s[i:]]: the slice of a string from position [i] on. *)
Fixpoint slice_from (i : nat) (s : string) : string :=
  match i, s with
  | O, _ => s
  | S _, EmptyString => EmptyString
  | S i', String _ s' => slice_from i' s'
  end.

(** [sep.join(l)] *)
Fixpoint join (sep : string) (l : list string) : string :=
  match l with
  | [] => EmptyString
  | [s] => s
  | s :: l' => (s ++ sep ++ join sep l')%string
  end.

(** [str(n)] / ['{0}'.format(n)] for a natural number. *)
Definition str_of_nat (n : nat) : string :=
  NilZero.string_of_uint (Nat.to_uint n).

(** *** [int(s)] for a string

    The literal is scanned the way the interpreter does it: leading
    white space, one optional sign, the longest run of digits and
    underscores (which may not be empty, start or end with an
    underscore, or hold two underscores in a row), trailing white
    space, end of string.  White space is tab, line feed, vertical tab,
    form feed, carriage return, space and, above 127, next-line (0x85)
    and no-break space (0xA0).  A run of more than [max_str_digits]
    digits, underscores not counted, is refused: this is the limit the
    interpreter starts with. *)
Definition is_space (c : ascii) : bool :=
  let n := nat_of_ascii c in
  (((9 <=? n) && (n <=? 13)) || (n =? 32) || (n =? 133) || (n =? 160))%nat.

Definition is_digit (c : ascii) : bool :=
  let n := nat_of_ascii c in ((48 <=? n) && (n <=? 57))%nat.

Definition digit_value (c : ascii) : Z :=
  Z.of_nat (nat_of_ascii c - 48).

Definition underscore : ascii := "_"%char.

Fixpoint skip_spaces (s : string) : string :=
  match s with
  | String c s' => if is_space c then skip_spaces s' else s
  | EmptyString => EmptyString
  end.

(** The longest prefix of digits and underscores, and what follows it. *)
Fixpoint scan_run (s : string) : string * string :=
  match s with
  | String c s' =>
      if is_digit c || Ascii.eqb c underscore then
        let (run, rest) := scan_run s' in (String c run, rest)
      else (EmptyString, s)
  | EmptyString => (EmptyString, EmptyString)
  end.

(** The value of a run, [prev] being the character before it; [None]
    for two underscores in a row or an underscore at the end. *)
Fixpoint run_value (prev : ascii) (acc : Z) (run : string) : option Z :=
  match run with
  | EmptyString => if Ascii.eqb prev underscore then None else Some acc
  | String c run' =>
      if Ascii.eqb c underscore then
        if Ascii.eqb prev underscore then None else run_value c acc run'
      else run_value c (10 * acc + digit_value c)%Z run'
  end.

Definition parse_run (run : string) : option Z :=
  match run with
  | EmptyString => None
  | String c _ =>
      if Ascii.eqb c underscore then None else run_value zero 0%Z run
  end.

Definition take_sign (s : string) : Z * string :=
  match s with
  | String c s' =>
      if Ascii.eqb c "+"%char then (1%Z, s')
      else if Ascii.eqb c "-"%char then ((-1)%Z, s')
      else (1%Z, s)
  | EmptyString => (1%Z, s)
  end.

Definition max_str_digits : nat := 4300.

(** The number of digits of a run. *)
Fixpoint count_digits (run : string) : nat :=
  match run with
  | EmptyString => 0
  | String c run' =>
      (if Ascii.eqb c underscore then 0 else 1) + count_digits run'
  end.

Definition int (s : string) : result Z :=
  let (sign, s) := take_sign (skip_spaces s) in
  let (run, rest) := scan_run s in
  match parse_run run with
  | None => Raise ValueError
  | Some v =>
      if (count_digits run <=? max_str_digits)%nat then
        match skip_spaces rest with
        | EmptyString => Ok (sign * v)%Z
        | String _ _ => Raise ValueError
        end
      else Raise ValueError
  end.

(** *** [l.sort(key=f, reverse=True)]

    The keys of all elements are computed first, from left to right;
    an exception in a key leaves the list as it was and is raised.
    Then list and keys are reversed, sorted by a stable sort that
    compares keys with [<] only, and reversed again. *)
Section Sort.
Context {A : Type}.

Fixpoint compute_keys (key : A -> result Z) (l : list A)
  : result (list (Z * A)) :=
  match l with
  | [] => Ok []
  | x :: l' =>
      k <- key x ;;
      kl <- compute_keys key l' ;;
      Ok ((k, x) :: kl)
  end.

(** Insert [x] after every element that is not greater than it. *)
Fixpoint insert (x : Z * A) (l : list (Z * A)) : list (Z * A) :=
  match l with
  | [] => [x]
  | y :: l' => if (fst x <? fst y)%Z then x :: l else y :: insert x l'
  end.

Definition stable_sort (l : list (Z * A)) : list (Z * A) :=
  fold_left (fun sorted x => insert x sorted) l [].

Definition sort_reverse (key : A -> result Z) (l : list A)
  : result (list A) :=
  kl <- compute_keys key l ;;
  Ok (map snd (rev (stable_sort (rev kl)))).
End Sort.

End Py.

(** ** createKey *)

Definition caret : ascii := "^"%char.

Definition createKey (completeName : string) : result string :=
  let completeName := Py.lower completeName in
  let name := Py.split caret completeName in
  let nameLength := List.length name in
  if (nameLength =? 2)%nat then
    Ok completeName
  else if (nameLength =? 3)%nat then
    Ok (nth 0 name "" ++ "^" ++ nth 1 name "")%string
  else
    Raise (Exception "Name is not in a proper structure").


(** ** The dictionary of groups

    [namesDictionary] maps a key to the list of rows of that key; it is
    kept in insertion order. *)
Definition namesDict : Type := list (string * list row).

Fixpoint contains (d : namesDict) (k : string) : bool :=
  match d with
  | [] => false
  | (k', _) :: d' => String.eqb k' k || contains d' k
  end.

(** [d.setdefault(k, v)]: a new key goes to the end. *)
Definition setdefault (d : namesDict) (k : string) (v : list row) : namesDict :=
  if contains d k then d else d ++ [(k, v)].

(** [d[k].append(item)]: [KeyError] when [k] is missing. *)
Fixpoint getitem_append (d : namesDict) (k : string) (item : row)
  : result namesDict :=
  match d with
  | [] => Raise (KeyError k)
  | (k', v) :: d' =>
      if String.eqb k' k then Ok ((k', v ++ [item]) :: d')
      else d'' <- getitem_append d' k item ;; Ok ((k', v) :: d'')
  end.

(** ** createDictionary *)

Fixpoint createDictionary_loop (namesDictionary : namesDict) (data : list row)
  : result namesDict :=
  match data with
  | [] => Ok namesDictionary
  | item :: data' =>
      name <- Py.getitem item 1 ;;
      currentKey <- createKey name ;;
      let namesDictionary := setdefault namesDictionary currentKey [] in
      namesDictionary <- getitem_append namesDictionary currentKey item ;;
      createDictionary_loop namesDictionary data'
  end.

Definition createDictionary (data : list row) : result namesDict :=
  createDictionary_loop [] data.

(** ** extractNumber and sortDictbyPidDesc *)

Definition extractNumber (str : string) : result Z :=
  Py.int (Py.slice_from 3 str).

(** The sort key [lambda arr: extractNumber(arr[0])]. *)
Definition pid_key (arr : row) : result Z :=
  pid <- Py.getitem arr 0 ;; extractNumber pid.

(** The value lists are sorted in place and the same dictionary is
    returned: the result is the state of that one table after the call. *)
Fixpoint sortDictbyPidDesc (dict : namesDict) : result namesDict :=
  match dict with
  | [] => Ok []
  | (k, v) :: dict' =>
      v' <- Py.sort_reverse pid_key v ;;
      sorted' <- sortDictbyPidDesc dict' ;;
      Ok ((k, v') :: sorted')
  end.

(** ** Output: printOutput and main

    A computation that prints takes what is printed so far, one entry
    for each call of [print], and gives what is printed when it stops,
    with its value or the exception that stopped it. *)
Definition stdout : Type := list string.

Definition IO (A : Type) : Type := stdout -> stdout * result A.

Definition io_ret {A : Type} (a : A) : IO A := fun out => (out, Ok a).

Definition io_bind {A B : Type} (m : IO A) (k : A -> IO B) : IO B :=
  fun out =>
    match m out with
    | (out', Ok a) => k a out'
    | (out', Raise e) => (out', Raise e)
    end.

Definition io_lift {A : Type} (r : result A) : IO A := fun out => (out, r).

Definition print (line : string) : IO unit := fun out => (out ++ [line], Ok tt).

Declare Scope io_scope.
Delimit Scope io_scope with io.
Notation "x <- c1 ;; c2" := (io_bind c1 (fun x => c2))
  (at level 61, c1 at next level, right associativity) : io_scope.
Notation "c1 ;; c2" := (io_bind c1 (fun _ => c2))
  (at level 61, right associativity) : io_scope.

Fixpoint print_items (value : list row) : IO unit :=
  match value with
  | [] => io_ret tt
  | item :: value' =>
      (print (Py.join "," item) ;; print_items value')%io
  end.

Fixpoint printOutput_loop (counter : nat) (items : namesDict) : IO unit :=
  match items with
  | [] => io_ret tt
  | (key, value) :: items' =>
      (print (Py.str_of_nat counter ++ ":")%string ;;
       let counter := counter + 1 in
       print_items value ;;
       printOutput_loop counter items')%io
  end.

Definition printOutput (namesDictionary : namesDict) : IO unit :=
  printOutput_loop 0 namesDictionary.

Definition marker : string := "Different version, sorted by PID number".

(** [main] after [readInputFile]: [data] is the list of rows read. *)
Definition main (data : list row) : IO unit :=
  (namesDictionary <- io_lift (createDictionary data) ;;
   printOutput namesDictionary ;;
   print marker ;;
   sortedDictionary <- io_lift (sortDictbyPidDesc namesDictionary) ;;
   printOutput sortedDictionary)%io.

(** A run of the program starts with nothing printed. *)
Definition run (data : list row) : stdout * result unit := main data [].

Definition sample : list row :=
  [ ["PID1"; "POND^AMY"; "F"; "19890224"];
    ["PID2"; "WILLIAMS^RORY"; "M"; "19881102"];
    ["PID3"; "POND^AMY"; "F"; "19890224"];
    ["PID4"; "POND^AMY"; "F"; "20010911"] ].

(** ** Notions used to state the properties *)

(** Number of occurrences of a character in a string. *)
Fixpoint count_char (c : ascii) (s : string) : nat :=
  match s with
  | EmptyString => 0
  | String c' s' => (if Ascii.eqb c' c then 1 else 0) + count_char c s'
  end.

(** The grouping key of a row: [createKey(item[1])]. *)
Definition row_key (item : row) : result string :=
  name <- Py.getitem item 1 ;; createKey name.

Definition has_key (k : string) (item : row) : bool :=
  match row_key item with
  | Ok k' => String.eqb k' k
  | Raise _ => false
  end.

(** The exception of [createKey]. *)
Definition name_error : exn := Exception "Name is not in a proper structure".

(** A row whose name field exists and normalises. *)
Definition row_ok (item : row) : Prop := exists k, row_key item = Ok k.

(** The body of the loop of [createDictionary] for a row of key [k]. *)
Definition add_item (d : namesDict) (k : string) (item : row)
  : result namesDict :=
  getitem_append (setdefault d k []) k item.

(** The keys of the rows, in input order, and the same list with only the
    first occurrence of each key kept. *)
Definition keys_of (data : list row) : list string :=
  flat_map (fun item => match row_key item with
                        | Ok k => [k]
                        | Raise _ => []
                        end) data.

Fixpoint first_seen (ks : list string) : list string :=
  match ks with
  | [] => []
  | k :: ks' => k :: filter (fun k' => negb (String.eqb k' k)) (first_seen ks')
  end.

(** The table the specification describes: one group per key, in the
    order the keys are first met, each group holding the rows of its key
    in input order. *)
Definition grouped (data : list row) : namesDict :=
  map (fun k => (k, filter (has_key k) data)) (first_seen (keys_of data)).

(** Every row of a group has the key of the group. *)
Definition group_ok (g : string * list row) : Prop :=
  Forall (fun item => row_key item = Ok (fst g)) (snd g).

(** All the rows of a table, group after group. *)
Definition rows_of (d : namesDict) : list row := List.concat (map snd d).

(** The lines of a report: for each group its index, counted from
    [counter], then its rows, each with its fields joined by commas. *)
Fixpoint report_from (counter : nat) (d : namesDict) : list string :=
  match d with
  | [] => []
  | (_, v) :: d' =>
      (Py.str_of_nat counter ++ ":")%string
        :: map (Py.join ",") v ++ report_from (S counter) d'
  end.

Definition report (d : namesDict) : list string := report_from 0 d.

(** The number a row is sorted by, for a row whose key can be computed. *)
Definition pid_number (arr : row) : Z :=
  match pid_key arr with
  | Ok n => n
  | Raise _ => 0%Z
  end.

Definition has_number (n : Z) (arr : row) : bool := (pid_number arr =? n)%Z.

(** Rows by descending number. *)
Definition descending (v : list row) : Prop :=
  StronglySorted (fun a b => (pid_number a >= pid_number b)%Z) v.

(** The rows of one number are in the same order in [v'] as in [v]. *)
Definition ties_in_order (v v' : list row) : Prop :=
  forall n, filter (has_number n) v' = filter (has_number n) v.

(** What [sortDictbyPidDesc] owes for one group. *)
Definition group_sorted (g g' : string * list row) : Prop :=
  fst g' = fst g /\
  Permutation (snd g) (snd g') /\
  descending (snd g') /\
  ties_in_order (snd g) (snd g').

(** Order and selection on the keyed elements the sort works on. *)
Definition le_key {A : Type} (x y : Z * A) : Prop := (fst x <= fst y)%Z.

Definition key_is {A : Type} (n : Z) (x : Z * A) : bool := (fst x =? n)%Z.

(** A keyed row carries the number of its row. *)
Definition keyed (x : Z * row) : Prop := pid_key (snd x) = Ok (fst x).

(** The run prints both reports in full, or nothing. *)
Definition all_or_nothing (data : list row) : Prop :=
  fst (run data) = [] \/
  exists d d',
    createDictionary data = Ok d /\ sortDictbyPidDesc d = Ok d' /\
    fst (run data) = report d ++ marker :: report d'.

(** *** Integer literals

    The strings [int] accepts, said without reference to the scanner:
    white space, an optional sign, groups of digits joined by single
    underscores, white space; the digits are at most [Py.max_str_digits]. *)
Fixpoint all_chars (p : ascii -> bool) (s : string) : bool :=
  match s with
  | EmptyString => true
  | String c s' => p c && all_chars p s'
  end.

Definition run_char (c : ascii) : bool :=
  Py.is_digit c || Ascii.eqb c Py.underscore.

Fixpoint decimal_from (acc : Z) (s : string) : Z :=
  match s with
  | EmptyString => acc
  | String c s' => decimal_from (10 * acc + Py.digit_value c) s'
  end.

(** The number a string of digits denotes. *)
Definition decimal_value (s : string) : Z := decimal_from 0 s.

(** A non-empty string of digits. *)
Definition is_decimal (s : string) : bool :=
  negb (String.eqb s "") && all_chars Py.is_digit s.

Inductive sign : Type := NoSign | Plus | Minus.

Definition sign_text (sg : sign) : string :=
  match sg with
  | NoSign => ""
  | Plus => "+"
  | Minus => "-"
  end.

Definition sign_factor (sg : sign) : Z :=
  match sg with
  | Minus => (-1)%Z
  | _ => 1%Z
  end.

Definition all_digits (groups : list string) : string :=
  fold_right String.append "" groups.

Definition int_literal (s : string) (n : Z) : Prop :=
  exists ws1 sg groups ws2,
    s = (ws1 ++ sign_text sg ++ Py.join "_" groups ++ ws2)%string /\
    all_chars Py.is_space ws1 = true /\
    all_chars Py.is_space ws2 = true /\
    groups <> [] /\
    Forall (fun g => is_decimal g = true) groups /\
    String.length (all_digits groups) <= Py.max_str_digits /\
    n = (sign_factor sg * decimal_value (all_digits groups))%Z.

(** The reading of [extractNumber] as a parser of unsigned numbers: the
    text after the first three characters is a non-empty string of
    digits and its number is returned, or else the call raises. *)
Definition unsigned_contract (str : string) : Prop :=
  let rest := Py.slice_from 3 str in
  if is_decimal rest then extractNumber str = Ok (decimal_value rest)
  else raises (extractNumber str).

(** *** Notions for the further properties *)

(** A character of the ASCII range, and a string of such characters. *)
Definition is_ascii (c : ascii) : bool := (nat_of_ascii c <? 128)%nat.

Definition ascii_string (s : string) : Prop := all_chars is_ascii s = true.

(** A string without a caret: a last, first or middle name. *)
Definition caret_free (s : string) : Prop := count_char caret s = 0.

(** [d'] is [d] with rows added at the end of groups and groups added at
    the end of the table. *)
Definition extends (d d' : namesDict) : Prop :=
  exists old new,
    d' = old ++ new /\
    Forall2 (fun g g' => fst g' = fst g /\ exists more, snd g' = snd g ++ more)
            d old.

(** * Properties *)

(** ** Characters and strings *)

Lemma lower_char_caret (c : ascii) :
  Ascii.eqb (Py.lower_char c) caret = Ascii.eqb c caret.
Proof.
  destruct c as [[] [] [] [] [] [] [] []]; reflexivity.
Qed.

Lemma lower_char_idem (c : ascii) :
  Py.lower_char (Py.lower_char c) = Py.lower_char c.
Proof.
  destruct c as [[] [] [] [] [] [] [] []]; reflexivity.
Qed.

Lemma lower_idem (s : string) : Py.lower (Py.lower s) = Py.lower s.
Proof.
  induction s as [|c s IH]; simpl; [reflexivity|].
  now rewrite lower_char_idem, IH.
Qed.

Lemma split_not_nil (c : ascii) (s : string) : Py.split c s <> [].
Proof.
  destruct s as [|a s]; simpl; [discriminate|].
  destruct (Ascii.eqb a c); [discriminate|].
  destruct (Py.split c s); discriminate.
Qed.

Lemma split_length (c : ascii) (s : string) :
  List.length (Py.split c s) = S (count_char c s).
Proof.
  induction s as [|a s IH]; simpl; [reflexivity|].
  destruct (Ascii.eqb a c); simpl; [now rewrite IH|].
  destruct (Py.split c s) as [|p ps] eqn:E; simpl in *; [discriminate|exact IH].
Qed.

Lemma split_lower (s : string) :
  Py.split caret (Py.lower s) = map Py.lower (Py.split caret s).
Proof.
  induction s as [|a s IH]; simpl; [reflexivity|].
  rewrite lower_char_caret.
  destruct (Ascii.eqb a caret); simpl; [now rewrite IH|].
  rewrite IH.
  destruct (Py.split caret s) as [|p ps] eqn:E; simpl; [|reflexivity].
  now destruct (split_not_nil caret s).
Qed.

Lemma count_char_lower (s : string) :
  count_char caret (Py.lower s) = count_char caret s.
Proof.
  induction s as [|a s IH]; simpl; [reflexivity|].
  now rewrite lower_char_caret, IH.
Qed.

(** Every piece of a lower-cased string is in lower case. *)
Lemma split_lower_pieces (s p : string) :
  In p (Py.split caret (Py.lower s)) -> Py.lower p = p.
Proof.
  rewrite split_lower, in_map_iff.
  intros (q & <- & _). apply lower_idem.
Qed.

(** ** createKey *)

(** C1.  [createKey] lower-cases its argument and splits it on the caret.
    With exactly two pieces the result is the whole lower-cased string;
    with exactly three it is the first two pieces, in lower case, joined
    by a caret, whatever the third is; with any other number of pieces
    the exception of [createKey] is raised, and it is raised in no other
    case.  The number of pieces is one more than the number of carets. *)
Theorem createKey_contract (completeName : string) :
  let parts := Py.split caret (Py.lower completeName) in
  createKey completeName =
    match parts with
    | [_; _] => Ok (Py.lower completeName)
    | [last; first; _] => Ok (Py.lower last ++ "^" ++ Py.lower first)%string
    | _ => Raise name_error
    end
  /\ (raises (createKey completeName)
      <-> List.length parts <> 2 /\ List.length parts <> 3)
  /\ (forall e, createKey completeName = Raise e -> e = name_error)
  /\ parts = map Py.lower (Py.split caret completeName)
  /\ List.length parts = S (count_char caret completeName).
Proof.
  intros parts.
  assert (Hlow : forall p, In p parts -> Py.lower p = p)
    by (intros p; apply split_lower_pieces).
  assert (Hlen : List.length parts = S (count_char caret completeName))
    by (unfold parts; now rewrite split_length, count_char_lower).
  split; [|split; [|split; [|split]]].
  - unfold createKey. fold parts.
    destruct parts as [|p0 [|p1 [|p2 [|p3 rest]]]]; simpl; try reflexivity.
    now rewrite (Hlow p0), (Hlow p1) by (simpl; auto).
  - unfold createKey, raises. fold parts.
    destruct (List.length parts =? 2)%nat eqn:E2.
    + apply Nat.eqb_eq in E2. split; [intros [e He]; discriminate | lia].
    + destruct (List.length parts =? 3)%nat eqn:E3.
      * apply Nat.eqb_eq in E3. split; [intros [e He]; discriminate | lia].
      * apply Nat.eqb_neq in E2, E3. split; [auto | intros _; eauto].
  - unfold createKey. fold parts. intros e.
    destruct (List.length parts =? 2)%nat; [discriminate|].
    destruct (List.length parts =? 3)%nat; [discriminate|].
    now intros [= <-].
  - apply split_lower.
  - exact Hlen.
Qed.

(** C7.  [createKey] does not see the case of its argument: two names
    with the same lower-case form have the same result (the same key, or
    the same exception), and a name and its lower-case form do. *)
Theorem createKey_case_insensitive (s t : string) :
  Py.lower s = Py.lower t ->
  createKey s = createKey t /\ createKey (Py.lower s) = createKey s.
Proof.
  intros H. unfold createKey. rewrite lower_idem, H. split; reflexivity.
Qed.

Lemma createKey_case_insensitive_witness :
  Py.lower "POND^AMY" = Py.lower "pond^amy" /\
  createKey "POND^AMY" = createKey "pond^amy" /\
  createKey "POND^AMY" = Ok "pond^amy".
Proof.
  split; [reflexivity|].
  split; [apply (createKey_case_insensitive "POND^AMY" "pond^amy"); reflexivity|].
  reflexivity.
Defined.

(** ** The dictionary *)

Lemma contains_false (d : namesDict) (k : string) :
  contains d k = false <-> ~ In k (map fst d).
Proof.
  induction d as [|[k' v] d IH]; simpl; [tauto|].
  rewrite orb_false_iff, IH, String.eqb_neq. tauto.
Qed.

Lemma contains_app (d1 d2 : namesDict) (k : string) :
  contains (d1 ++ d2) k = contains d1 k || contains d2 k.
Proof.
  induction d1 as [|[k' v] d1 IH]; simpl; [reflexivity|].
  now rewrite IH, orb_assoc.
Qed.

(** What one turn of the loop does: the row goes to the end of the first
    group of its key, or to a new group at the end of the table. *)
Lemma add_item_cases (d : namesDict) (k : string) (item : row) :
  (exists d1 v d2,
      d = d1 ++ (k, v) :: d2 /\ contains d1 k = false /\
      add_item d k item = Ok (d1 ++ (k, v ++ [item]) :: d2))
  \/ (contains d k = false /\ add_item d k item = Ok (d ++ [(k, [item])])).
Proof.
  unfold add_item, setdefault.
  induction d as [|[k' v'] d IH]; simpl.
  - right. split; [reflexivity|]. now rewrite String.eqb_refl.
  - destruct (String.eqb k' k) eqn:E; simpl.
    + apply String.eqb_eq in E. subst k'. left.
      exists [], v', d. simpl. rewrite String.eqb_refl. auto.
    + destruct IH as [(d1 & v & d2 & -> & Hc & Ha) | [Hc Ha]].
      * left. exists ((k', v') :: d1), v, d2. simpl.
        rewrite E, Hc. split; [reflexivity|]. split; [reflexivity|].
        rewrite contains_app in *. simpl in *.
        rewrite String.eqb_refl, orb_true_r in *.
        simpl. rewrite E, Ha. reflexivity.
      * right. rewrite Hc in *. simpl. rewrite E. split; [reflexivity|].
        now rewrite Ha.
Qed.

Lemma add_item_total (d : namesDict) (k : string) (item : row) :
  exists d', add_item d k item = Ok d'.
Proof.
  destruct (add_item_cases d k item) as [(d1 & v & d2 & _ & _ & H) | [_ H]];
    eauto.
Qed.

Lemma rows_of_app (d1 d2 : namesDict) :
  rows_of (d1 ++ d2) = rows_of d1 ++ rows_of d2.
Proof. unfold rows_of. now rewrite map_app, concat_app. Qed.

Lemma rows_of_cons (k : string) (v : list row) (d : namesDict) :
  rows_of ((k, v) :: d) = v ++ rows_of d.
Proof. reflexivity. Qed.

(** One turn of the loop keeps the keys distinct and every row under its
    own key, and adds the row to the rows of the table. *)
Lemma add_item_invariant (d : namesDict) (k : string) (item : row) :
  NoDup (map fst d) -> Forall group_ok d -> row_key item = Ok k ->
  exists d',
    add_item d k item = Ok d' /\
    NoDup (map fst d') /\ Forall group_ok d' /\
    Permutation (rows_of d') (rows_of d ++ [item]).
Proof.
  intros Hnd Hok Hk.
  destruct (add_item_cases d k item) as [(d1 & v & d2 & -> & Hc & Ha) | [Hc Ha]];
    rewrite Ha; eexists; (split; [reflexivity|]).
  - repeat split.
    + now rewrite map_app in *.
    + apply Forall_app in Hok as [H1 H2].
      apply Forall_app. split; [assumption|].
      inversion H2 as [|? ? Hv H2']; subst. constructor; [|assumption].
      unfold group_ok in *. simpl in *.
      apply Forall_app. split; [assumption|]. now constructor.
    + rewrite !rows_of_app, !rows_of_cons, <- !app_assoc.
      apply Permutation_app_head. apply Permutation_app_head.
      apply Permutation_app_comm.
  - apply contains_false in Hc. repeat split.
    + rewrite map_app. simpl.
      apply NoDup_app_remove_l with (l := []). simpl.
      apply Permutation_NoDup with (l := k :: map fst d).
      * apply Permutation_cons_append.
      * now constructor.
    + apply Forall_app. split; [assumption|].
      constructor; [|constructor]. unfold group_ok. simpl. now constructor.
    + rewrite rows_of_app. unfold rows_of at 2. simpl. reflexivity.
Qed.

(** ** createDictionary *)

Lemma createDictionary_loop_cons (d : namesDict) (item : row) (data : list row) :
  createDictionary_loop d (item :: data) =
  (k <- row_key item ;;
   d' <- add_item d k item ;;
   createDictionary_loop d' data).
Proof.
  simpl. unfold row_key.
  destruct (Py.getitem item 1) as [name|e]; simpl; [|reflexivity].
  destruct (createKey name); reflexivity.
Qed.

Lemma createDictionary_loop_app (d : namesDict) (data1 data2 : list row) :
  createDictionary_loop d (data1 ++ data2) =
  (d' <- createDictionary_loop d data1 ;; createDictionary_loop d' data2).
Proof.
  revert d. induction data1 as [|item data1 IH]; intros d; [reflexivity|].
  rewrite <- app_comm_cons, !createDictionary_loop_cons.
  destruct (row_key item) as [k|e]; simpl; [|reflexivity].
  destruct (add_item d k item) as [d'|e]; simpl; [apply IH | reflexivity].
Qed.

Lemma createDictionary_loop_invariant (data : list row) :
  forall d : namesDict,
    NoDup (map fst d) -> Forall group_ok d -> Forall row_ok data ->
    exists d',
      createDictionary_loop d data = Ok d' /\
      NoDup (map fst d') /\ Forall group_ok d' /\
      Permutation (rows_of d') (rows_of d ++ data).
Proof.
  induction data as [|item data IH]; intros d Hnd Hok Hdata.
  - exists d. rewrite app_nil_r. auto.
  - inversion Hdata as [|? ? [k Hk] Hdata']; subst.
    destruct (add_item_invariant d k item Hnd Hok Hk)
      as (d1 & Ha & Hnd1 & Hok1 & Hp1).
    destruct (IH d1 Hnd1 Hok1 Hdata') as (d' & Hl & Hnd' & Hok' & Hp').
    exists d'. rewrite createDictionary_loop_cons, Hk. simpl.
    rewrite Ha. simpl. repeat split; try assumption.
    rewrite Hp'. rewrite Hp1, <- app_assoc. reflexivity.
Qed.

(** The first row whose key cannot be computed stops the loop with the
    exception of that row. *)
Lemma createDictionary_loop_error (data1 data2 : list row) (item : row) (e : exn) :
  forall d : namesDict,
    Forall row_ok data1 -> row_key item = Raise e ->
    createDictionary_loop d (data1 ++ item :: data2) = Raise e.
Proof.
  induction data1 as [|item1 data1 IH]; intros d Hdata He.
  - simpl app. rewrite createDictionary_loop_cons, He. reflexivity.
  - inversion Hdata as [|? ? [k Hk] Hdata']; subst.
    rewrite <- app_comm_cons, createDictionary_loop_cons, Hk. simpl.
    destruct (add_item_total d k item1) as [d1 ->]. simpl.
    now apply IH.
Qed.

(** Either every row has a key, or there is a first row without one. *)
Lemma rows_ok_or_first_bad (data : list row) :
  Forall row_ok data \/
  exists data1 item data2 e,
    data = data1 ++ item :: data2 /\ Forall row_ok data1 /\
    row_key item = Raise e.
Proof.
  induction data as [|item data IH]; [left; constructor|].
  destruct (row_key item) as [k|e] eqn:E.
  - destruct IH as [IH | (data1 & item' & data2 & e & -> & H1 & He)].
    + left. constructor; [exists k|]; assumption.
    + right. exists (item :: data1), item', data2, e.
      repeat split; try assumption. constructor; [exists k|]; assumption.
  - right. exists [], item, data, e. repeat split; [constructor | assumption].
Qed.

Lemma createDictionary_invariant (data : list row) :
  Forall row_ok data ->
  exists d,
    createDictionary data = Ok d /\
    NoDup (map fst d) /\ Forall group_ok d /\ Permutation (rows_of d) data.
Proof.
  intros H.
  apply (createDictionary_loop_invariant data []); try constructor. exact H.
Qed.

(** C4.  When the name field of every row normalises, [createDictionary]
    returns a table whose keys are distinct, whose groups hold only rows
    of their own key, and whose rows, taken together, are the input rows,
    each as often as in the input.  So every input row is in exactly one
    group, the one of its key. *)
Theorem createDictionary_partition (data : list row) :
  Forall row_ok data ->
  exists d,
    createDictionary data = Ok d /\
    NoDup (map fst d) /\
    Forall group_ok d /\
    Permutation (rows_of d) data /\
    (forall item, In item data ->
       exists k v,
         row_key item = Ok k /\ In (k, v) d /\ In item v /\
         forall k' v', In (k', v') d -> In item v' -> k' = k /\ v' = v).
Proof.
  intros H.
  destruct (createDictionary_invariant data H) as (d & Hd & Hnd & Hok & Hp).
  exists d. do 4 (split; [assumption|]).
  intros item Hin.
  assert (Hg : forall k v, In (k, v) d -> In item v -> row_key item = Ok k).
  { intros k v Hkv Hv. rewrite Forall_forall in Hok.
    specialize (Hok _ Hkv). unfold group_ok in Hok. simpl in Hok.
    rewrite Forall_forall in Hok. now apply Hok. }
  apply (Permutation_in _ (Permutation_sym Hp)) in Hin.
  unfold rows_of in Hin. apply in_concat in Hin as (v & Hv & Hitem).
  apply in_map_iff in Hv as ([k v0] & Heq & Hkv). simpl in Heq. subst v0.
  exists k, v. split; [now apply (Hg k v)|]. do 2 (split; [assumption|]).
  intros k' v' Hkv' Hitem'.
  assert (k' = k) as ->.
  { pose proof (Hg k v Hkv Hitem). pose proof (Hg k' v' Hkv' Hitem').
    congruence. }
  split; [reflexivity|].
  clear - Hnd Hkv Hkv'.
  induction d as [|[k0 v0] d IH]; [contradiction|].
  simpl in Hnd. inversion Hnd as [|? ? Hnot Hnd']; subst.
  destruct Hkv as [E|Hkv], Hkv' as [E'|Hkv'].
  - congruence.
  - inversion E; subst. destruct Hnot.
    apply in_map_iff. now exists (k, v').
  - inversion E'; subst. destruct Hnot.
    apply in_map_iff. now exists (k, v).
  - now apply IH.
Qed.

Lemma createDictionary_partition_witness :
  exists d,
    createDictionary sample = Ok d /\ NoDup (map fst d) /\
    Forall group_ok d /\ Permutation (rows_of d) sample.
Proof.
  assert (H : Forall row_ok sample).
  { unfold sample. repeat constructor; eexists; reflexivity. }
  destruct (createDictionary_partition sample H) as (d & H1 & H2 & H3 & H4 & _).
  exists d. auto.
Defined.

(** ** Keys in order of first occurrence *)

Lemma first_seen_In (ks : list string) (k : string) :
  In k (first_seen ks) <-> In k ks.
Proof.
  induction ks as [|a ks IH]; simpl; [tauto|].
  rewrite filter_In, IH, negb_true_iff, String.eqb_neq.
  destruct (string_dec a k); intuition congruence.
Qed.

Lemma first_seen_NoDup (ks : list string) : NoDup (first_seen ks).
Proof.
  induction ks as [|a ks IH]; simpl; constructor.
  - rewrite filter_In, negb_true_iff, String.eqb_neq. tauto.
  - now apply NoDup_filter.
Qed.

Lemma first_seen_snoc (ks : list string) (k : string) :
  first_seen (ks ++ [k]) =
  if in_dec string_dec k ks then first_seen ks else first_seen ks ++ [k].
Proof.
  induction ks as [|a ks IH]; simpl; [reflexivity|].
  rewrite IH.
  destruct (string_dec a k) as [->|Hne].
  - destruct (in_dec string_dec k ks); [reflexivity|].
    rewrite filter_app. simpl. rewrite String.eqb_refl. simpl.
    now rewrite app_nil_r.
  - destruct (in_dec string_dec k ks); [reflexivity|].
    rewrite filter_app. simpl.
    assert (E : String.eqb k a = false) by (apply String.eqb_neq; congruence).
    now rewrite E.
Qed.

Lemma keys_of_app (data1 data2 : list row) :
  keys_of (data1 ++ data2) = keys_of data1 ++ keys_of data2.
Proof. unfold keys_of. apply flat_map_app. Qed.

Lemma has_key_true (k : string) (item : row) :
  has_key k item = true <-> row_key item = Ok k.
Proof.
  unfold has_key. destruct (row_key item) as [k'|e].
  - rewrite String.eqb_eq. split; congruence.
  - split; discriminate.
Qed.

Lemma keys_of_In (data : list row) (k : string) :
  In k (keys_of data) <-> exists item, In item data /\ row_key item = Ok k.
Proof.
  unfold keys_of. rewrite in_flat_map. split.
  - intros (item & Hin & Hk). exists item. split; [assumption|].
    destruct (row_key item); simpl in Hk; [|contradiction].
    destruct Hk as [->|[]]. reflexivity.
  - intros (item & Hin & Hk). exists item. split; [assumption|].
    rewrite Hk. now left.
Qed.

Lemma filter_has_key_absent (data : list row) (k : string) :
  ~ In k (keys_of data) -> filter (has_key k) data = [].
Proof.
  intros Hnot. induction data as [|item data IH]; [reflexivity|].
  simpl. destruct (has_key k item) eqn:E.
  - apply has_key_true in E. destruct Hnot.
    apply keys_of_In. exists item. split; [now left | assumption].
  - apply IH. intros Hin. apply Hnot.
    apply keys_of_In in Hin as (item' & Hin & Hk).
    apply keys_of_In. exists item'. split; [now right | assumption].
Qed.

(** Adding a row to the table of the rows before it gives the table of
    all the rows. *)
Lemma grouped_snoc (data : list row) (item : row) (k : string) :
  row_key item = Ok k ->
  add_item (grouped data) k item = Ok (grouped (data ++ [item])).
Proof.
  intros Hk.
  assert (Hkeys : keys_of (data ++ [item]) = keys_of data ++ [k]).
  { rewrite keys_of_app. unfold keys_of at 2. simpl. now rewrite Hk. }
  assert (Hother : forall k', k' <> k ->
            filter (has_key k') (data ++ [item]) = filter (has_key k') data).
  { intros k' Hne. rewrite filter_app. simpl.
    destruct (has_key k' item) eqn:E; [|apply app_nil_r].
    apply has_key_true in E. congruence. }
  assert (Hsame : filter (has_key k) (data ++ [item])
                  = filter (has_key k) data ++ [item]).
  { rewrite filter_app. simpl.
    now rewrite (proj2 (has_key_true k item) Hk). }
  unfold grouped at 2. rewrite Hkeys, first_seen_snoc.
  destruct (add_item_cases (grouped data) k item)
    as [(d1 & v & d2 & Hd & Hc & ->) | [Hc ->]]; f_equal.
  - unfold grouped in Hd.
    apply map_eq_app in Hd as (ks1 & ks' & Hks & <- & Hd).
    apply map_eq_cons in Hd as (k0 & ks2 & -> & Hkv & <-).
    inversion Hkv; subst k0 v. clear Hkv.
    pose proof (first_seen_NoDup (keys_of data)) as Hnd.
    rewrite Hks in Hnd.
    assert (Hin : In k (keys_of data)).
    { apply first_seen_In. rewrite Hks. apply in_elt. }
    destruct (in_dec string_dec k (keys_of data)); [|contradiction].
    rewrite Hks, map_app. simpl. rewrite Hsame.
    apply NoDup_remove_2 in Hnd.
    f_equal; [|f_equal]; apply map_ext_in; intros k' Hk';
      rewrite Hother; try reflexivity;
      intros ->; apply Hnd, in_or_app; auto.
  - apply contains_false in Hc.
    assert (Hnot : ~ In k (keys_of data)).
    { intros Hin. apply Hc. unfold grouped. rewrite map_map. simpl.
      rewrite map_id. now apply first_seen_In. }
    destruct (in_dec string_dec k (keys_of data)); [contradiction|].
    rewrite map_app. simpl.
    rewrite Hsame, (filter_has_key_absent data k Hnot). simpl.
    f_equal. apply map_ext_in. intros k' Hk'.
    rewrite Hother; [reflexivity|].
    intros ->. now apply Hnot, first_seen_In.
Qed.

Lemma createDictionary_grouped (data : list row) :
  Forall row_ok data -> createDictionary data = Ok (grouped data).
Proof.
  induction data as [|item data IH] using rev_ind; intros H; [reflexivity|].
  apply Forall_app in H as [Hdata Hitem].
  inversion Hitem as [|? ? [k Hk] _]; subst.
  unfold createDictionary in *.
  rewrite createDictionary_loop_app, (IH Hdata). unfold bind at 1.
  rewrite createDictionary_loop_cons, Hk. simpl.
  now rewrite (grouped_snoc data item k Hk).
Qed.

(** The keys listed before a key [k] are the keys met before the first
    occurrence of [k]. *)
Lemma first_seen_order (ks : list string) :
  forall ks1 k ks2,
    first_seen ks = ks1 ++ k :: ks2 ->
    exists pre suf,
      ks = pre ++ k :: suf /\ ~ In k pre /\
      forall k', In k' ks1 <-> In k' pre.
Proof.
  induction ks as [|a ks IH] using rev_ind; intros ks1 k ks2 H.
  - now destruct ks1.
  - rewrite first_seen_snoc in H.
    destruct (in_dec string_dec a ks) as [Hin|Hnot].
    + destruct (IH _ _ _ H) as (pre & suf & -> & Hpre & Hiff).
      exists pre, (suf ++ [a]). rewrite <- app_assoc. auto.
    + destruct ks2 as [|b ks2 _] using rev_ind.
      * apply app_inj_tail in H as [H ->].
        exists ks, []. repeat split; try assumption;
          rewrite <- H; apply first_seen_In.
      * change (ks1 ++ k :: ks2 ++ [b]) with (ks1 ++ (k :: ks2) ++ [b]) in H.
        rewrite app_assoc in H. apply app_inj_tail in H as [H _].
        destruct (IH _ _ _ H) as (pre & suf & -> & Hpre & Hiff).
        exists pre, (suf ++ [a]). rewrite <- app_assoc. auto.
Qed.

Lemma keys_of_split (data : list row) :
  forall pk k sk,
    keys_of data = pk ++ k :: sk ->
    exists pre item suf,
      data = pre ++ item :: suf /\ keys_of pre = pk /\ row_key item = Ok k.
Proof.
  induction data as [|item data IH]; intros pk k sk H.
  - now destruct pk.
  - unfold keys_of in H. simpl in H. fold (keys_of data) in H.
    destruct (row_key item) as [k0|e] eqn:E; simpl in H.
    + destruct pk as [|k1 pk]; simpl in H; inversion H; subst.
      * exists [], item, data. auto.
      * destruct (IH _ _ _ H2) as (pre & item' & suf & -> & Hpk & Hk).
        exists (item :: pre), item', suf. repeat split; try assumption.
        unfold keys_of. simpl. rewrite E. simpl. f_equal. exact Hpk.
    + destruct (IH _ _ _ H) as (pre & item' & suf & -> & Hpk & Hk).
      exists (item :: pre), item', suf. repeat split; try assumption.
      unfold keys_of. simpl. rewrite E. simpl. exact Hpk.
Qed.

(** C5.  When the name field of every row normalises, the table of
    [createDictionary] lists the keys in the order in which they are
    first met in the input, and the group of a key holds the rows of that
    key in input order: the groups before the group of [k] are those of
    the keys met before the first row of key [k]. *)
Theorem createDictionary_order (data : list row) :
  Forall row_ok data ->
  exists d,
    createDictionary data = Ok d /\
    d = grouped data /\
    map fst d = first_seen (keys_of data) /\
    (forall k v, In (k, v) d -> v = filter (has_key k) data) /\
    (forall d1 k v d2,
        d = d1 ++ (k, v) :: d2 ->
        exists pre item suf,
          data = pre ++ item :: suf /\ row_key item = Ok k /\
          ~ In k (keys_of pre) /\
          forall k', In k' (map fst d1) <-> In k' (keys_of pre)).
Proof.
  intros H. exists (grouped data).
  assert (Hfst : map fst (grouped data) = first_seen (keys_of data)).
  { unfold grouped. rewrite map_map. simpl. apply map_id. }
  split; [now apply createDictionary_grouped|].
  split; [reflexivity|]. split; [exact Hfst|]. split.
  - intros k v Hin. unfold grouped in Hin.
    apply in_map_iff in Hin as (k0 & E & _). now inversion E.
  - intros d1 k v d2 Hd.
    assert (E : first_seen (keys_of data) = map fst d1 ++ k :: map fst d2).
    { rewrite <- Hfst, Hd, map_app. reflexivity. }
    destruct (first_seen_order _ _ _ _ E) as (pk & sk & Hks & Hnot & Hiff).
    destruct (keys_of_split _ _ _ _ Hks) as (pre & item & suf & -> & <- & Hk).
    exists pre, item, suf. auto.
Qed.

Lemma createDictionary_order_witness :
  createDictionary sample = Ok (grouped sample) /\
  grouped sample =
    [ ("pond^amy", [ ["PID1"; "POND^AMY"; "F"; "19890224"];
                     ["PID3"; "POND^AMY"; "F"; "19890224"];
                     ["PID4"; "POND^AMY"; "F"; "20010911"] ]);
      ("williams^rory", [ ["PID2"; "WILLIAMS^RORY"; "M"; "19881102"] ]) ].
Proof.
  assert (H : Forall row_ok sample).
  { unfold sample. repeat constructor; eexists; reflexivity. }
  destruct (createDictionary_order sample H) as (d & H1 & -> & _).
  split; [exact H1 | reflexivity].
Defined.

(** ** printOutput *)

Lemma print_items_lines (value : list row) (out : stdout) :
  print_items value out = (out ++ map (Py.join ",") value, Ok tt).
Proof.
  revert out. induction value as [|item value IH]; intros out; simpl.
  - unfold io_ret. now rewrite app_nil_r.
  - unfold io_bind, print. rewrite IH, <- app_assoc. reflexivity.
Qed.

Lemma printOutput_loop_lines (d : namesDict) :
  forall (counter : nat) (out : stdout),
    printOutput_loop counter d out = (out ++ report_from counter d, Ok tt).
Proof.
  induction d as [|[k v] d IH]; intros counter out; simpl.
  - unfold io_ret. now rewrite app_nil_r.
  - unfold io_bind, print. rewrite print_items_lines, IH.
    rewrite Nat.add_1_r, <- !app_assoc. reflexivity.
Qed.

(** [printOutput] never raises and only adds the lines of the report. *)
Lemma printOutput_lines (d : namesDict) (out : stdout) :
  printOutput d out = (out ++ report d, Ok tt).
Proof. apply printOutput_loop_lines. Qed.

(** ** main *)

Lemma run_cases (data : list row) :
  run data =
  match createDictionary data with
  | Raise e => ([], Raise e)
  | Ok d =>
      match sortDictbyPidDesc d with
      | Raise e => (report d ++ [marker], Raise e)
      | Ok d' => (report d ++ marker :: report d', Ok tt)
      end
  end.
Proof.
  unfold run, main, io_bind, io_lift, print.
  destruct (createDictionary data) as [d|e]; [|reflexivity].
  rewrite printOutput_lines. simpl.
  destruct (sortDictbyPidDesc d) as [d'|e]; [|reflexivity].
  rewrite printOutput_lines, <- app_assoc. reflexivity.
Qed.

(** C8.  On the four rows of the example the run prints the first report
    (group 0 with PID1, PID3, PID4, group 1 with PID2), the marker line,
    and the second report (group 0 with PID4, PID3, PID1, group 1 with
    PID2), each row as its fields joined by commas, and ends normally. *)
Theorem run_sample :
  run [ ["PID1"; "POND^AMY"; "F"; "19890224"];
        ["PID2"; "WILLIAMS^RORY"; "M"; "19881102"];
        ["PID3"; "POND^AMY"; "F"; "19890224"];
        ["PID4"; "POND^AMY"; "F"; "20010911"] ]
  = ( [ "0:";
        "PID1,POND^AMY,F,19890224";
        "PID3,POND^AMY,F,19890224";
        "PID4,POND^AMY,F,20010911";
        "1:";
        "PID2,WILLIAMS^RORY,M,19881102" ]
      ++ [ "Different version, sorted by PID number" ]
      ++ [ "0:";
           "PID4,POND^AMY,F,20010911";
           "PID3,POND^AMY,F,19890224";
           "PID1,POND^AMY,F,19890224";
           "1:";
           "PID2,WILLIAMS^RORY,M,19881102" ],
      Ok tt ).
Proof. vm_compute. reflexivity. Qed.

(** C10.  On the empty input [createDictionary] returns the empty table,
    [printOutput] of the empty table prints nothing, and the run prints
    the marker line only and ends normally. *)
Theorem run_empty :
  createDictionary [] = Ok []
  /\ (forall out, printOutput [] out = (out, Ok tt))
  /\ run [] = (["Different version, sorted by PID number"], Ok tt).
Proof. repeat split. Qed.

(** C9.  The number of fields of a row is never checked.  A row with at
    least two fields, however many, has the key of its second field; a
    list of such rows with names that normalise is grouped as usual, and
    a row is printed as all its fields joined by commas.  A row with
    fewer than two fields stops [createDictionary] with [IndexError]. *)
Theorem no_field_count_check :
  (forall id name rest, row_key (id :: name :: rest) = createKey name)
  /\ (forall data,
         Forall (fun item => exists id name rest k,
                     item = id :: name :: rest /\ createKey name = Ok k) data ->
         createDictionary data = Ok (grouped data))
  /\ (forall d out, printOutput d out = (out ++ report d, Ok tt))
  /\ (forall k item out,
         printOutput [(k, [item])] out
         = (out ++ ["0:"; Py.join "," item], Ok tt))
  /\ (forall data item data',
         Forall row_ok data -> List.length item < 2 ->
         createDictionary (data ++ item :: data') = Raise IndexError).
Proof.
  split; [reflexivity|]. split; [|split; [|split]].
  - intros data H. apply createDictionary_grouped.
    eapply Forall_impl; [|exact H].
    intros item (id & name & rest & k & -> & Hk). exists k. exact Hk.
  - intros d out. apply printOutput_lines.
  - intros k item out. apply printOutput_lines.
  - intros data item data' Hdata Hlen.
    apply createDictionary_loop_error; [assumption|].
    destruct item as [|id [|name rest]]; simpl in Hlen; try reflexivity. lia.
Qed.

Lemma no_field_count_check_witness :
  createDictionary [["PID1"; "a^b"; "F"; "1"; "extra"]; ["PID2"; "A^B"]]
  = Ok [("a^b", [["PID1"; "a^b"; "F"; "1"; "extra"]; ["PID2"; "A^B"]])]
  /\ printOutput [("a^b", [["PID1"; "a^b"; "F"; "1"; "extra"]])] []
     = (["0:"; "PID1,a^b,F,1,extra"], Ok tt)
  /\ createDictionary [["PID1"; "a^b"]; ["PID2"]; ["PID3"; "c^d"]]
     = Raise IndexError.
Proof.
  destruct no_field_count_check as (_ & H2 & _ & H4 & H5).
  split; [|split].
  - rewrite H2; [reflexivity|].
    repeat constructor; do 4 eexists; split; reflexivity.
  - apply H4.
  - apply (H5 [["PID1"; "a^b"]] ["PID2"] [["PID3"; "c^d"]]).
    + repeat constructor. eexists. reflexivity.
    + simpl. lia.
Defined.

(** ** The stable sort *)

Lemma filter_none {A : Type} (f : A -> bool) (l : list A) :
  Forall (fun a => f a = false) l -> filter f l = [].
Proof.
  induction 1 as [|a l Ha _ IH]; simpl; [reflexivity|]. now rewrite Ha.
Qed.

Section StableSort.
Context {A : Type}.
Implicit Types (x y : Z * A) (l : list (Z * A)).

Lemma insert_perm x l : Permutation (Py.insert x l) (x :: l).
Proof.
  induction l as [|y l IH]; simpl; [reflexivity|].
  destruct (fst x <? fst y)%Z; [reflexivity|].
  rewrite IH. apply perm_swap.
Qed.

Lemma insert_sorted x l :
  StronglySorted le_key l -> StronglySorted le_key (Py.insert x l).
Proof.
  induction 1 as [|y l Hs IH Hy]; simpl.
  - repeat constructor.
  - destruct (fst x <? fst y)%Z eqn:E.
    + apply Z.ltb_lt in E. constructor; [now constructor|].
      constructor; [unfold le_key; lia|].
      eapply Forall_impl; [|exact Hy]. unfold le_key. intros; lia.
    + apply Z.ltb_ge in E. constructor; [assumption|].
      apply (Permutation_Forall (Permutation_sym (insert_perm x l))).
      constructor; assumption.
Qed.

(** In a sorted list the new element comes after the elements of its
    own key. *)
Lemma insert_filter n x l :
  StronglySorted le_key l ->
  filter (key_is n) (Py.insert x l)
  = filter (key_is n) l ++ filter (key_is n) [x].
Proof.
  induction 1 as [|y l Hs IH Hy]; [reflexivity|].
  cbn [Py.insert]. destruct (fst x <? fst y)%Z eqn:E.
  - apply Z.ltb_lt in E.
    destruct (key_is n x) eqn:Ex.
    + assert (Hnone : filter (key_is n) (y :: l) = []).
      { unfold key_is in Ex. apply Z.eqb_eq in Ex.
        apply filter_none. constructor.
        - unfold key_is. apply Z.eqb_neq. lia.
        - eapply Forall_impl; [|exact Hy]. unfold le_key, key_is.
          intros z Hz. apply Z.eqb_neq. lia. }
      cbn [filter] in Hnone |- *. rewrite Ex, Hnone. reflexivity.
    + cbn [filter]. rewrite Ex. now rewrite app_nil_r.
  - cbn [filter]. rewrite IH. destruct (key_is n y); reflexivity.
Qed.

Lemma fold_insert_spec l :
  forall sorted,
    StronglySorted le_key sorted ->
    let s := fold_left (fun sorted x => Py.insert x sorted) l sorted in
    StronglySorted le_key s /\
    Permutation s (sorted ++ l) /\
    forall n, filter (key_is n) s
              = filter (key_is n) sorted ++ filter (key_is n) l.
Proof.
  induction l as [|x l IH]; intros sorted Hs; cbn [fold_left].
  - rewrite app_nil_r. split; [assumption|]. split; [reflexivity|].
    intros n. now rewrite app_nil_r.
  - destruct (IH (Py.insert x sorted) (insert_sorted x sorted Hs))
      as (H1 & H2 & H3).
    split; [assumption|]. split.
    + rewrite H2, insert_perm. apply Permutation_middle.
    + intros n. rewrite H3, (insert_filter n x sorted Hs), <- app_assoc.
      f_equal. cbn [filter]. now destruct (key_is n x).
Qed.

Lemma stable_sort_spec l :
  StronglySorted le_key (Py.stable_sort l) /\
  Permutation (Py.stable_sort l) l /\
  forall n, filter (key_is n) (Py.stable_sort l) = filter (key_is n) l.
Proof.
  apply (fold_insert_spec l []). constructor.
Qed.

Lemma compute_keys_spec (key : A -> result Z) (v : list A) :
  Forall (fun a => exists n, key a = Ok n) v ->
  exists kl,
    Py.compute_keys key v = Ok kl /\
    map snd kl = v /\
    Forall (fun x => key (snd x) = Ok (fst x)) kl.
Proof.
  induction 1 as [|a v [n Hn] _ (kl & Hkl & Hv & Hk)]; simpl.
  - exists []. split; [reflexivity|]. split; [reflexivity|constructor].
  - exists ((n, a) :: kl). rewrite Hn, Hkl. simpl.
    split; [reflexivity|]. split; [now rewrite Hv|]. now constructor.
Qed.

(** The first element whose key raises stops the computation of keys. *)
Lemma compute_keys_error (key : A -> result Z) (v : list A) :
  Exists (fun a => raises (key a)) v ->
  exists a e, In a v /\ key a = Raise e /\ Py.compute_keys key v = Raise e.
Proof.
  induction v as [|a v IH]; intros H; [inversion H|].
  simpl. destruct (key a) as [n|e] eqn:E.
  - inversion H as [? ? [e He]|? ? H']; subst; [congruence|].
    destruct (IH H') as (a' & e & Hin & Ha' & Hc).
    exists a', e. rewrite Hc. simpl. auto.
  - exists a, e. simpl. auto.
Qed.
End StableSort.

Lemma StronglySorted_snoc {A : Type} (R : A -> A -> Prop) (l : list A) (a : A) :
  StronglySorted R l -> Forall (fun b => R b a) l -> StronglySorted R (l ++ [a]).
Proof.
  induction 1 as [|b l Hs IH Hb]; intros Ha; simpl.
  - repeat constructor.
  - inversion Ha; subst. constructor; [now apply IH|].
    apply Forall_app. split; [assumption | now constructor].
Qed.

Lemma StronglySorted_rev {A : Type} (R : A -> A -> Prop) (l : list A) :
  StronglySorted R l -> StronglySorted (fun a b => R b a) (rev l).
Proof.
  induction 1 as [|a l Hs IH Ha]; simpl; [constructor|].
  apply StronglySorted_snoc; [assumption|].
  now apply Forall_rev.
Qed.

(** ** Sorting one group *)

Lemma keyed_number (x : Z * row) : keyed x -> pid_number (snd x) = fst x.
Proof. unfold keyed, pid_number. now intros ->. Qed.

Lemma keyed_filter (n : Z) (kl : list (Z * row)) :
  Forall keyed kl ->
  filter (has_number n) (map snd kl) = map snd (filter (key_is n) kl).
Proof.
  intros H. rewrite filter_map_swap. f_equal.
  apply filter_ext_in. intros x Hx.
  rewrite Forall_forall in H. unfold has_number, key_is.
  now rewrite (keyed_number x (H x Hx)).
Qed.

Lemma keyed_descending (kl : list (Z * row)) :
  Forall keyed kl ->
  StronglySorted (fun x y => le_key y x) kl -> descending (map snd kl).
Proof.
  intros Hk Hs. unfold descending.
  induction Hs as [|x kl Hs IH Hx]; simpl; [constructor|].
  inversion Hk as [|? ? Hkx Hk']; subst.
  constructor; [now apply IH|].
  rewrite Forall_map, Forall_forall in *.
  intros y Hy. specialize (Hx y Hy). unfold le_key in Hx.
  rewrite (keyed_number x Hkx), (keyed_number y (Hk' y Hy)). lia.
Qed.

(** [v.sort(key=..., reverse=True)] on rows whose numbers can all be
    computed: the rows by descending number, rows of equal number in
    their former order. *)
Lemma sort_reverse_rows (v : list row) :
  Forall (fun arr => exists n, pid_key arr = Ok n) v ->
  exists v',
    Py.sort_reverse pid_key v = Ok v' /\
    Permutation v v' /\ descending v' /\ ties_in_order v v'.
Proof.
  intros H.
  destruct (compute_keys_spec pid_key v H) as (kl & Hkl & Hv & Hk).
  fold keyed in Hk.
  unfold Py.sort_reverse. rewrite Hkl. simpl.
  destruct (stable_sort_spec (rev kl)) as (Hs & Hp & Hf).
  set (s := Py.stable_sort (rev kl)) in *.
  assert (Hperm : Permutation kl (rev s)).
  { rewrite <- (Permutation_rev s), Hp. apply Permutation_rev. }
  assert (Hk' : Forall keyed (rev s))
    by (apply (Permutation_Forall Hperm); exact Hk).
  eexists. split; [reflexivity|]. split; [|split].
  - rewrite <- Hv. now apply Permutation_map.
  - apply keyed_descending; [assumption|].
    now apply StronglySorted_rev.
  - intros n. rewrite <- Hv, !keyed_filter by assumption.
    now rewrite filter_rev, Hf, filter_rev, rev_involutive.
Qed.

Lemma sort_reverse_rows_error (v : list row) :
  Exists (fun arr => raises (pid_key arr)) v ->
  exists arr e,
    In arr v /\ pid_key arr = Raise e /\ Py.sort_reverse pid_key v = Raise e.
Proof.
  intros H.
  destruct (compute_keys_error pid_key v H) as (arr & e & Hin & He & Hc).
  exists arr, e. unfold Py.sort_reverse. rewrite Hc. auto.
Qed.
(** ** sortDictbyPidDesc *)

Lemma sortDictbyPidDesc_spec (dict : namesDict) :
  Forall (fun arr => exists n, pid_key arr = Ok n) (rows_of dict) ->
  exists sorted,
    sortDictbyPidDesc dict = Ok sorted /\
    map fst sorted = map fst dict /\
    Forall2 group_sorted dict sorted.
Proof.
  induction dict as [|[k v] dict IH]; intros H; simpl.
  - exists []. repeat split; constructor.
  - rewrite rows_of_cons in H. apply Forall_app in H as [Hv Hd].
    destruct (sort_reverse_rows v Hv) as (v' & -> & Hp & Hdesc & Hties).
    destruct (IH Hd) as (sorted & -> & Hkeys & Hall). simpl.
    exists ((k, v') :: sorted). split; [reflexivity|]. split.
    + simpl. now rewrite Hkeys.
    + constructor; [|assumption]. repeat split; assumption.
Qed.

(** C6.  On a table in which the number of every row can be computed,
    [sortDictbyPidDesc] returns a table with the same keys in the same
    order; each group holds the rows it held, by descending number, and
    rows of equal number keep the order they had. *)
Theorem sortDictbyPidDesc_contract (dict : namesDict) :
  Forall (fun arr => exists n, pid_key arr = Ok n) (rows_of dict) ->
  exists sorted,
    sortDictbyPidDesc dict = Ok sorted /\
    map fst sorted = map fst dict /\
    Forall2 (fun g g' =>
               fst g' = fst g /\
               Permutation (snd g) (snd g') /\
               StronglySorted
                 (fun a b => (pid_number a >= pid_number b)%Z) (snd g') /\
               forall n, filter (has_number n) (snd g')
                         = filter (has_number n) (snd g))
            dict sorted.
Proof. apply sortDictbyPidDesc_spec. Qed.

Lemma sortDictbyPidDesc_contract_witness :
  let dict :=
    [ ("pond^amy", [ ["PID1"; "POND^AMY"]; ["PID3"; "POND^AMY"];
                     ["PID+3"; "Pond^Amy"]; ["PID4"; "POND^AMY"] ]);
      ("williams^rory", [ ["PID2"; "WILLIAMS^RORY"] ]) ] in
  exists sorted,
    sortDictbyPidDesc dict = Ok sorted /\
    map fst sorted = map fst dict /\
    Forall2 group_sorted dict sorted.
Proof.
  intros dict. apply (sortDictbyPidDesc_contract dict).
  unfold rows_of. simpl. repeat constructor; eexists; reflexivity.
Defined.

(** ** The outcomes of a run *)

Lemma int_error (s : string) (e : exn) : Py.int s = Raise e -> e = ValueError.
Proof.
  unfold Py.int.
  destruct (Py.take_sign (Py.skip_spaces s)) as [sign s1].
  destruct (Py.scan_run s1) as [run rest].
  destruct (Py.parse_run run); [|congruence].
  destruct (Py.count_digits run <=? Py.max_str_digits)%nat; [|congruence].
  destruct (Py.skip_spaces rest); congruence.
Qed.

(** A row that has a name field has an ID field: its number is computed
    or [int] raises. *)
Lemma pid_key_error (arr : row) (e : exn) :
  row_ok arr -> pid_key arr = Raise e -> e = ValueError.
Proof.
  intros [k Hk]. destruct arr as [|pid rest]; [discriminate|].
  unfold pid_key. simpl. apply int_error.
Qed.

Lemma pid_key_cases (v : list row) :
  Forall (fun arr => exists n, pid_key arr = Ok n) v \/
  Exists (fun arr => raises (pid_key arr)) v.
Proof.
  induction v as [|arr v [IH|IH]]; [left; constructor| |].
  - destruct (pid_key arr) as [n|e] eqn:E.
    + left. constructor; [now exists n | assumption].
    + right. left. now exists e.
  - right. now right.
Qed.

Lemma sortDictbyPidDesc_error (dict : namesDict) :
  Exists (fun arr => raises (pid_key arr)) (rows_of dict) ->
  exists arr e,
    In arr (rows_of dict) /\ pid_key arr = Raise e /\
    sortDictbyPidDesc dict = Raise e.
Proof.
  induction dict as [|[k v] dict IH]; intros H; [inversion H|].
  rewrite rows_of_cons in *. simpl.
  destruct (pid_key_cases v) as [Hv|Hv].
  - apply Exists_app in H as [H|H].
    + apply Exists_exists in H as (arr & Hin & [e He]).
      rewrite Forall_forall in Hv. destruct (Hv arr Hin). congruence.
    + destruct (sort_reverse_rows v Hv) as (v' & -> & _).
      destruct (IH H) as (arr & e & Hin & He & ->).
      exists arr, e. rewrite in_app_iff. auto.
  - destruct (sort_reverse_rows_error v Hv) as (arr & e & Hin & He & ->).
    exists arr, e. rewrite in_app_iff. auto.
Qed.

(** C3, as the program has it.  A run has one of three outcomes.  When
    the key of some row cannot be computed, nothing is printed and the
    exception of [createDictionary] ends the run.  When every row has a
    key but the number of some row cannot be computed, the first report
    and the marker line are printed, in full, and [ValueError] ends the
    run before anything of the second report is printed.  Otherwise both
    reports are printed in full around the marker line. *)
Theorem run_outcomes (data : list row) :
  (exists e,
      Exists (fun item => raises (row_key item)) data /\
      createDictionary data = Raise e /\
      run data = ([], Raise e))
  \/ (exists d,
         Forall row_ok data /\
         Exists (fun item => raises (pid_key item)) data /\
         createDictionary data = Ok d /\
         run data = (report d ++ [marker], Raise ValueError))
  \/ (exists d d',
         Forall row_ok data /\
         Forall (fun item => exists n, pid_key item = Ok n) data /\
         createDictionary data = Ok d /\
         sortDictbyPidDesc d = Ok d' /\
         run data = (report d ++ marker :: report d', Ok tt)).
Proof.
  rewrite run_cases.
  destruct (rows_ok_or_first_bad data)
    as [Hok | (data1 & item & data2 & e & -> & H1 & He)].
  - right.
    destruct (createDictionary_invariant data Hok) as (d & Hd & _ & _ & Hp).
    rewrite Hd.
    destruct (pid_key_cases data) as [Hpid|Hpid].
    + right.
      assert (Hrows : Forall (fun arr => exists n, pid_key arr = Ok n) (rows_of d))
        by (apply (Permutation_Forall (Permutation_sym Hp)); exact Hpid).
      destruct (sortDictbyPidDesc_spec d Hrows) as (d' & Hs & _).
      rewrite Hs. exists d, d'. auto.
    + left.
      assert (Hrows : Exists (fun arr => raises (pid_key arr)) (rows_of d)).
      { apply Exists_exists in Hpid as (arr & Hin & Hr).
        apply Exists_exists. exists arr. split; [|assumption].
        now apply (Permutation_in _ (Permutation_sym Hp)). }
      destruct (sortDictbyPidDesc_error d Hrows) as (arr & e & Hin & He & Hs).
      rewrite Hs.
      assert (e = ValueError) as ->.
      { apply (pid_key_error arr); [|assumption].
        rewrite Forall_forall in Hok. apply Hok.
        now apply (Permutation_in _ Hp). }
      exists d. auto.
  - left. exists e.
    unfold createDictionary.
    rewrite (createDictionary_loop_error data1 data2 item e [] H1 He).
    split; [|auto].
    apply Exists_app. right. left. now exists e.
Qed.

(** C3 fails as it is stated: with a well-formed name and an ID whose
    number cannot be parsed, the first report and the marker line are
    printed before the run is stopped. *)
Lemma run_not_all_or_nothing :
  run [["PIDx"; "a^b"]]
  = (["0:"; "PIDx,a^b"; "Different version, sorted by PID number"],
     Raise ValueError)
  /\ ~ all_or_nothing [["PIDx"; "a^b"]].
Proof.
  split; [reflexivity|].
  intros [H | (d & d' & Hd & Hs & _)].
  - discriminate H.
  - inversion Hd; subst d. discriminate Hs.
Qed.

(** ** int *)

Lemma sapp_assoc (a b c : string) :
  ((a ++ b) ++ c = a ++ (b ++ c))%string.
Proof. induction a as [|x a IH]; simpl; [reflexivity | now rewrite IH]. Qed.

Lemma sapp_nil_r (a : string) : (a ++ "")%string = a.
Proof. induction a as [|x a IH]; simpl; [reflexivity | now rewrite IH]. Qed.

Lemma all_chars_app (p : ascii -> bool) (a b : string) :
  all_chars p (a ++ b) = all_chars p a && all_chars p b.
Proof.
  induction a as [|x a IH]; simpl; [reflexivity|].
  now rewrite IH, andb_assoc.
Qed.

Lemma digit_not_other (c : ascii) :
  Py.is_digit c = true ->
  Py.is_space c = false /\ Ascii.eqb c Py.underscore = false /\
  Ascii.eqb c "+" = false /\ Ascii.eqb c "-" = false.
Proof.
  destruct c as [[] [] [] [] [] [] [] []]; intros H;
    try discriminate H; repeat split.
Qed.

Lemma space_not_run_char (c : ascii) :
  Py.is_space c = true -> run_char c = false.
Proof.
  destruct c as [[] [] [] [] [] [] [] []]; intros H;
    try discriminate H; reflexivity.
Qed.

Lemma skip_spaces_decomp (s : string) :
  exists ws, s = (ws ++ Py.skip_spaces s)%string /\
             all_chars Py.is_space ws = true.
Proof.
  induction s as [|c s (ws & Hs & Hws)]; simpl.
  - now exists "".
  - destruct (Py.is_space c) eqn:E.
    + exists (String c ws). simpl. rewrite E, Hws. now rewrite <- Hs.
    + now exists "".
Qed.

Lemma skip_spaces_app (ws t : string) :
  all_chars Py.is_space ws = true ->
  Py.skip_spaces (ws ++ t) = Py.skip_spaces t.
Proof.
  induction ws as [|c ws IH]; simpl; [reflexivity|].
  intros H. apply andb_true_iff in H as [-> H]. now apply IH.
Qed.

Lemma skip_spaces_all (s : string) :
  Py.skip_spaces s = "" <-> all_chars Py.is_space s = true.
Proof.
  induction s as [|c s IH]; simpl; [tauto|].
  destruct (Py.is_space c); simpl; [exact IH|].
  split; discriminate.
Qed.

Lemma scan_run_decomp (s : string) :
  forall run rest,
    Py.scan_run s = (run, rest) ->
    s = (run ++ rest)%string /\ all_chars run_char run = true.
Proof.
  induction s as [|c s IH]; simpl; intros run rest H.
  - inversion H. auto.
  - fold (run_char c) in H. destruct (run_char c) eqn:E.
    + destruct (Py.scan_run s) as [run' rest'].
      inversion H; subst. destruct (IH run' rest eq_refl) as [-> Hr].
      simpl. now rewrite E, Hr.
    + inversion H. auto.
Qed.

Lemma scan_run_app (r w : string) :
  all_chars run_char r = true ->
  all_chars Py.is_space w = true ->
  Py.scan_run (r ++ w) = (r, w).
Proof.
  intros Hr Hw. induction r as [|c r IH]; simpl.
  - destruct w as [|c w]; simpl; [reflexivity|].
    simpl in Hw. apply andb_true_iff in Hw as [Hc _].
    fold (run_char c). now rewrite (space_not_run_char c Hc).
  - simpl in Hr. apply andb_true_iff in Hr as [Hc Hr].
    fold (run_char c). now rewrite Hc, (IH Hr).
Qed.

Lemma join_cons_char (sep : string) (c : ascii) (g : string) (gs : list string) :
  Py.join sep (String c g :: gs) = String c (Py.join sep (g :: gs)).
Proof. destruct gs; reflexivity. Qed.

Lemma is_decimal_cons (g : string) :
  is_decimal g = true <->
  exists c g', g = String c g' /\ Py.is_digit c = true /\
               all_chars Py.is_digit g' = true.
Proof.
  unfold is_decimal. destruct g as [|c g']; simpl.
  - split; [discriminate | intros (c & g' & H & _); discriminate].
  - rewrite andb_true_iff. split.
    + intros [Hc Hg]. now exists c, g'.
    + intros (c0 & g0 & H & Hc & Hg). inversion H; subst. auto.
Qed.

(** A run that the scanner accepts is made of groups of digits joined
    by underscores; the first group may be empty only when the character
    before the run is not an underscore. *)
Lemma run_value_groups (run : string) :
  forall prev acc v,
    all_chars run_char run = true ->
    Py.run_value prev acc run = Some v ->
    exists g groups,
      run = Py.join "_" (g :: groups) /\
      all_chars Py.is_digit g = true /\
      (Ascii.eqb prev Py.underscore = true -> g <> "") /\
      Forall (fun g => is_decimal g = true) groups /\
      v = decimal_from acc (g ++ all_digits groups).
Proof.
  induction run as [|c run IH]; intros prev acc v Hrun Hv;
    cbn [Py.run_value all_chars] in Hrun, Hv.
  - destruct (Ascii.eqb prev Py.underscore) eqn:E; [discriminate|].
    inversion Hv; subst. exists "", []. repeat split; [discriminate | constructor].
  - apply andb_true_iff in Hrun as [Hc Hrun].
    destruct (Ascii.eqb c Py.underscore) eqn:Ec.
    + destruct (Ascii.eqb prev Py.underscore) eqn:E; [discriminate|].
      destruct (IH c acc v Hrun Hv) as (g & groups & -> & Hg & Hne & Hgs & ->).
      apply Ascii.eqb_eq in Ec. subst c.
      exists "", (g :: groups). repeat split; try discriminate.
      constructor; [|assumption].
      unfold is_decimal. rewrite Hg, andb_true_r.
      apply negb_true_iff, String.eqb_neq, Hne. reflexivity.
    + unfold run_char in Hc. rewrite Ec, orb_false_r in Hc.
      destruct (IH c _ v Hrun Hv) as (g & groups & -> & Hg & _ & Hgs & ->).
      exists (String c g), groups. rewrite join_cons_char.
      cbn [all_chars]. rewrite Hc, Hg.
      repeat split; [discriminate | assumption].
Qed.

Lemma run_value_join (groups : list string) :
  Forall (fun g => is_decimal g = true) groups ->
  forall g prev acc,
    all_chars Py.is_digit g = true ->
    (Ascii.eqb prev Py.underscore = true -> g <> "") ->
    Py.run_value prev acc (Py.join "_" (g :: groups))
    = Some (decimal_from acc (g ++ all_digits groups)).
Proof.
  induction 1 as [|g1 groups Hg1 Hgs IH]; intros g.
  - induction g as [|c g IHg]; intros prev acc Hg Hne; simpl.
    + destruct (Ascii.eqb prev Py.underscore); [now destruct Hne|reflexivity].
    + simpl in Hg. apply andb_true_iff in Hg as [Hc Hg].
      destruct (digit_not_other c Hc) as (_ & Hu & _). rewrite Hu.
      change g with (Py.join "_" [g]) at 1. apply IHg; [assumption|].
      rewrite Hu. discriminate.
  - induction g as [|c g IHg]; intros prev acc Hg Hne.
    + change (Py.join "_" ("" :: g1 :: groups))
        with (String "_" (Py.join "_" (g1 :: groups))).
      cbn [Py.run_value]. rewrite Ascii.eqb_refl.
      destruct (Ascii.eqb prev Py.underscore); [now destruct Hne|].
      apply is_decimal_cons in Hg1 as (c1 & g1' & -> & Hc1 & Hg1').
      apply IH; [|discriminate]. simpl. now rewrite Hc1, Hg1'.
    + rewrite join_cons_char. cbn [Py.run_value].
      simpl in Hg. apply andb_true_iff in Hg as [Hc Hg].
      destruct (digit_not_other c Hc) as (_ & Hu & _). rewrite Hu.
      apply IHg; [assumption|]. rewrite Hu. discriminate.
Qed.

Lemma join_run_chars (groups : list string) :
  Forall (fun g => is_decimal g = true) groups ->
  all_chars run_char (Py.join "_" groups) = true.
Proof.
  assert (Hd : forall g, all_chars Py.is_digit g = true ->
                         all_chars run_char g = true).
  { induction g as [|c g IHg]; simpl; [reflexivity|].
    intros H. apply andb_true_iff in H as [Hc Hg].
    unfold run_char at 1. now rewrite Hc, IHg. }
  induction 1 as [|g groups Hg Hgs IH]; [reflexivity|].
  unfold is_decimal in Hg. apply andb_true_iff in Hg as [_ Hg].
  destruct groups as [|g1 groups]; [now apply Hd|].
  change (Py.join "_" (g :: g1 :: groups))
    with (g ++ "_" ++ Py.join "_" (g1 :: groups))%string.
  rewrite !all_chars_app, IH, (Hd g Hg). reflexivity.
Qed.

Lemma take_sign_text (s : string) :
  forall f s', Py.take_sign s = (f, s') ->
  exists sg, s = (sign_text sg ++ s')%string /\ f = sign_factor sg.
Proof.
  intros f s' H. destruct s as [|c s]; simpl in H.
  - inversion H. now exists NoSign.
  - destruct (Ascii.eqb c "+") eqn:Ep.
    + apply Ascii.eqb_eq in Ep. inversion H; subst. now exists Plus.
    + destruct (Ascii.eqb c "-") eqn:Em.
      * apply Ascii.eqb_eq in Em. inversion H; subst. now exists Minus.
      * inversion H. now exists NoSign.
Qed.

Lemma slength_app (a b : string) :
  String.length (a ++ b) = String.length a + String.length b.
Proof. induction a as [|c a IH]; simpl; [reflexivity | now rewrite IH]. Qed.

Lemma count_digits_app (a b : string) :
  Py.count_digits (a ++ b) = Py.count_digits a + Py.count_digits b.
Proof.
  induction a as [|c a IH]; simpl; [reflexivity|]. rewrite IH. lia.
Qed.

Lemma count_digits_group (g : string) :
  all_chars Py.is_digit g = true -> Py.count_digits g = String.length g.
Proof.
  induction g as [|c g IH]; simpl; [reflexivity|].
  intros H. apply andb_true_iff in H as [Hc Hg].
  destruct (digit_not_other c Hc) as (_ & -> & _). now rewrite (IH Hg).
Qed.

(** The digits of a run are the characters of its groups. *)
Lemma count_digits_join (groups : list string) :
  Forall (fun g => all_chars Py.is_digit g = true) groups ->
  Py.count_digits (Py.join "_" groups) = String.length (all_digits groups).
Proof.
  induction 1 as [|g groups Hg Hgs IH]; [reflexivity|].
  cbn [all_digits fold_right]. fold (all_digits groups).
  rewrite slength_app, <- IH, <- (count_digits_group g Hg).
  destruct groups as [|g1 groups]; [simpl; lia|].
  change (Py.join "_" (g :: g1 :: groups))
    with (g ++ "_" ++ Py.join "_" (g1 :: groups))%string.
  now rewrite !count_digits_app.
Qed.

Lemma is_decimal_digits (g : string) :
  is_decimal g = true -> all_chars Py.is_digit g = true.
Proof. unfold is_decimal. intros H. now apply andb_true_iff in H. Qed.

(** [int] returns [n] on exactly the literals of value [n]. *)
Lemma int_spec (s : string) (n : Z) : Py.int s = Ok n <-> int_literal s n.
Proof.
  split.
  - unfold Py.int. intros H.
    destruct (skip_spaces_decomp s) as (ws1 & Hs & Hws1).
    destruct (Py.take_sign (Py.skip_spaces s)) as [f s1] eqn:Esign.
    destruct (take_sign_text _ _ _ Esign) as (sg & Hsg & ->).
    destruct (Py.scan_run s1) as [run rest] eqn:Escan.
    destruct (scan_run_decomp _ _ _ Escan) as [-> Hrun].
    destruct (Py.parse_run run) as [v|] eqn:Eparse; [|discriminate].
    destruct (Py.count_digits run <=? Py.max_str_digits)%nat eqn:Ecap;
      [|discriminate].
    destruct (Py.skip_spaces rest) eqn:Erest; [|discriminate].
    inversion H; subst n. clear H.
    apply skip_spaces_all in Erest. apply Nat.leb_le in Ecap.
    unfold Py.parse_run in Eparse.
    destruct run as [|c run]; [discriminate|].
    destruct (Ascii.eqb c Py.underscore) eqn:Ec; [discriminate|].
    destruct (run_value_groups _ _ _ _ Hrun Eparse)
      as (g & groups & Hjoin & Hg & _ & Hgs & ->).
    assert (Hall : Forall (fun g => all_chars Py.is_digit g = true)
                          (g :: groups)).
    { constructor; [assumption|].
      eapply Forall_impl; [|exact Hgs]. apply is_decimal_digits. }
    exists ws1, sg, (g :: groups), rest.
    rewrite <- Hjoin, <- Hsg.
    split; [assumption|]. split; [assumption|]. split; [assumption|].
    split; [discriminate|]. split; [|split; [|reflexivity]].
    + constructor; [|assumption].
      unfold is_decimal. rewrite Hg, andb_true_r.
      destruct g as [|c0 g]; [|reflexivity].
      destruct groups as [|g1 groups]; [discriminate|].
      inversion Hjoin; subst c. discriminate Ec.
    + rewrite <- (count_digits_join (g :: groups) Hall), <- Hjoin. exact Ecap.
  - intros (ws1 & sg & groups & ws2 & -> & Hws1 & Hws2 & Hne & Hgs & Hcap & ->).
    destruct groups as [|g groups]; [congruence|].
    assert (Hall : Forall (fun g => all_chars Py.is_digit g = true)
                          (g :: groups))
      by (eapply Forall_impl; [|exact Hgs]; apply is_decimal_digits).
    rewrite <- (count_digits_join (g :: groups) Hall) in Hcap.
    apply Nat.leb_le in Hcap.
    inversion Hgs as [|? ? Hg Hgs']; subst.
    apply is_decimal_cons in Hg as (c & g' & -> & Hc & Hg').
    destruct (digit_not_other c Hc) as (Hsp & Hu & Hplus & Hminus).
    assert (Hparse :
      Py.parse_run (Py.join "_" (String c g' :: groups))
      = Some (decimal_value (all_digits (String c g' :: groups)))).
    { rewrite join_cons_char. unfold Py.parse_run. rewrite Hu.
      rewrite <- join_cons_char. apply run_value_join; try assumption.
      - simpl. now rewrite Hc, Hg'.
      - discriminate. }
    unfold Py.int. rewrite skip_spaces_app by assumption.
    assert (Hsign :
      Py.take_sign (Py.skip_spaces
        (sign_text sg ++ Py.join "_" (String c g' :: groups) ++ ws2))
      = (sign_factor sg, (Py.join "_" (String c g' :: groups) ++ ws2)%string)).
    { rewrite join_cons_char.
      destruct sg; simpl; rewrite ?Hsp; simpl; rewrite ?Hplus, ?Hminus;
        reflexivity. }
    rewrite Hsign, scan_run_app, Hparse, Hcap;
      [|now apply join_run_chars | assumption].
    now rewrite (proj2 (skip_spaces_all ws2) Hws2).
Qed.

Lemma decimal_from_nonneg (s : string) :
  forall acc, (0 <= acc)%Z -> (0 <= decimal_from acc s)%Z.
Proof.
  induction s as [|c s IH]; intros acc Hacc; cbn [decimal_from];
    [assumption|].
  apply IH. unfold Py.digit_value. lia.
Qed.

(** [int] on a non-empty string of digits: its number, unless the
    digits are too many. *)
Lemma int_decimal (s : string) :
  is_decimal s = true ->
  Py.int s =
  if (String.length s <=? Py.max_str_digits)%nat
  then Ok (decimal_value s) else Raise ValueError.
Proof.
  intros H. pose proof (is_decimal_digits s H) as Hd.
  assert (Hparse : Py.parse_run s = Some (decimal_value s)).
  { pose proof (run_value_join [] (Forall_nil _) s zero 0%Z Hd) as Hv.
    cbn [Py.join all_digits fold_right] in Hv. rewrite sapp_nil_r in Hv.
    apply is_decimal_cons in H as (c & g' & -> & Hc & _).
    destruct (digit_not_other c Hc) as (_ & Hu & _).
    unfold Py.parse_run. rewrite Hu. apply Hv. discriminate. }
  assert (Hscan : Py.scan_run s = (s, "")).
  { rewrite <- (sapp_nil_r s) at 1. apply scan_run_app; [|reflexivity].
    apply (join_run_chars [s]). now constructor. }
  apply is_decimal_cons in H as (c & g' & E & Hc & _).
  destruct (digit_not_other c Hc) as (Hsp & _ & Hplus & Hminus).
  unfold Py.int.
  assert (Hsign : Py.take_sign (Py.skip_spaces s) = (1%Z, s)).
  { subst s. cbn [Py.skip_spaces]. rewrite Hsp.
    unfold Py.take_sign. now rewrite Hplus, Hminus. }
  rewrite Hsign, Hscan, Hparse, (count_digits_group s Hd).
  destruct (String.length s <=? Py.max_str_digits)%nat; [|reflexivity].
  cbn [Py.skip_spaces]. now rewrite Z.mul_1_l.
Qed.

(** ** extractNumber *)

(** C2, as the program has it.  [extractNumber] drops the first three
    characters and reads the rest as [int] does: white space, an optional
    sign, groups of digits joined by single underscores, white space, with
    at most 4300 digits.  On such a literal it returns the number read,
    which is negative after a minus sign; on a non-empty string of at
    most 4300 digits that is the unsigned number the digits denote, and
    on a longer string of digits it raises.  When the rest is made of
    ASCII characters it raises exactly when the rest is no such literal.
    The exception is always [ValueError], and it is not caught by the
    sort: a table that holds a row with such an ID makes
    [sortDictbyPidDesc] raise. *)
Theorem extractNumber_contract (str : string) :
  let rest := Py.slice_from 3 str in
  (forall n, int_literal rest n -> extractNumber str = Ok n)
  /\ (ascii_string rest ->
      (forall n, extractNumber str = Ok n -> int_literal rest n)
      /\ (raises (extractNumber str) <-> ~ exists n, int_literal rest n))
  /\ (forall e, extractNumber str = Raise e -> e = ValueError)
  /\ (is_decimal rest = true ->
      String.length rest <= Py.max_str_digits ->
      extractNumber str = Ok (decimal_value rest)
      /\ (0 <= decimal_value rest)%Z)
  /\ (is_decimal rest = true ->
      Py.max_str_digits < String.length rest ->
      extractNumber str = Raise ValueError)
  /\ (forall dict fields,
         In (str :: fields) (rows_of dict) ->
         raises (extractNumber str) ->
         raises (sortDictbyPidDesc dict)).
Proof.
  intros rest. unfold extractNumber. fold rest.
  split; [|split; [|split; [|split; [|split]]]].
  - intros n. apply int_spec.
  - intros _. split; [intros n; apply int_spec|]. split.
    + intros [e He] [n Hn]. apply int_spec in Hn. congruence.
    + intros Hnone. destruct (Py.int rest) as [n|e] eqn:E; [|now exists e].
      destruct Hnone. exists n. now apply int_spec.
  - intros e. apply int_error.
  - intros H Hlen. rewrite (int_decimal rest H).
    apply Nat.leb_le in Hlen. rewrite Hlen.
    split; [reflexivity | now apply decimal_from_nonneg].
  - intros H Hlen. rewrite (int_decimal rest H).
    apply Nat.leb_gt in Hlen. now rewrite Hlen.
  - intros dict fields Hin Hr.
    destruct (sortDictbyPidDesc_error dict) as (arr & e & _ & _ & Hs).
    + apply Exists_exists. exists (str :: fields). split; [assumption|].
      exact Hr.
    + now exists e.
Qed.

Lemma extractNumber_contract_witness :
  extractNumber "PID042" = Ok 42%Z
  /\ extractNumber "PID -4_2 " = Ok (-42)%Z
  /\ ~ (exists n, int_literal "4 2" n)
  /\ raises (sortDictbyPidDesc [("a^b", [["PID1"; "a^b"]; ["PIDx"; "a^b"]])]).
Proof.
  split; [|split; [|split]].
  - apply (extractNumber_contract "PID042"); [reflexivity|].
    unfold Py.max_str_digits. simpl. lia.
  - apply (extractNumber_contract "PID -4_2 ").
    exists " ", Minus, ["4"; "2"], " ".
    repeat split; try reflexivity; try discriminate.
    + repeat constructor.
    + unfold Py.max_str_digits. simpl. lia.
  - apply (extractNumber_contract "PID4 2"); [reflexivity|].
    exists ValueError. reflexivity.
  - apply (extractNumber_contract "PIDx") with (fields := ["a^b"]).
    + unfold rows_of. simpl. auto.
    + exists ValueError. reflexivity.
Defined.

(** C2 fails as it is stated: after the three characters of ["PID-7"]
    comes ["-7"], which is no unsigned number, and the call does not
    raise but returns the negative number [-7]. *)
Lemma extractNumber_not_unsigned :
  extractNumber "PID-7" = Ok (-7)%Z
  /\ is_decimal (Py.slice_from 3 "PID-7") = false
  /\ ~ unsigned_contract "PID-7".
Proof.
  split; [reflexivity|]. split; [reflexivity|].
  unfold unsigned_contract. simpl. intros [e He]. discriminate He.
Qed.

(** * Further properties *)

(** ** Splitting and joining *)

Lemma lower_app (a b : string) :
  Py.lower (a ++ b) = (Py.lower a ++ Py.lower b)%string.
Proof. induction a as [|c a IH]; simpl; [reflexivity | now rewrite IH]. Qed.

Lemma caret_free_lower (s : string) : caret_free s -> caret_free (Py.lower s).
Proof. unfold caret_free. now rewrite count_char_lower. Qed.

(** Joining the pieces of a string with the separator gives it back. *)
Lemma join_split (c : ascii) (s : string) :
  Py.join (String c "") (Py.split c s) = s.
Proof.
  induction s as [|a s IH]; [reflexivity|].
  cbn [Py.split]. destruct (Ascii.eqb a c) eqn:E.
  - apply Ascii.eqb_eq in E. subst a.
    destruct (Py.split c s) as [|p ps] eqn:Es;
      [now destruct (split_not_nil c s)|].
    change (Py.join (String c "") ("" :: p :: ps))
      with (String c (Py.join (String c "") (p :: ps))).
    now rewrite IH.
  - destruct (Py.split c s) as [|p ps] eqn:Es;
      [now destruct (split_not_nil c s)|].
    now rewrite join_cons_char, IH.
Qed.

Lemma split_pieces_free (c : ascii) (s p : string) :
  In p (Py.split c s) -> count_char c p = 0.
Proof.
  revert p. induction s as [|a s IH]; intros p; cbn [Py.split].
  - intros [<-|[]]. reflexivity.
  - destruct (Ascii.eqb a c) eqn:E.
    + intros [<-|H]; [reflexivity | now apply IH].
    + destruct (Py.split c s) as [|q qs] eqn:Es;
        [now destruct (split_not_nil c s)|].
      intros [<-|H].
      * simpl. rewrite E. apply IH. now left.
      * apply IH. now right.
Qed.

Lemma split_free (c : ascii) (p : string) :
  count_char c p = 0 -> Py.split c p = [p].
Proof.
  induction p as [|a p IH]; [reflexivity|].
  simpl. destruct (Ascii.eqb a c); [discriminate|].
  intros H. now rewrite (IH H).
Qed.

Lemma split_app_sep (c : ascii) (p t : string) :
  count_char c p = 0 ->
  Py.split c (p ++ String c t) = p :: Py.split c t.
Proof.
  induction p as [|a p IH]; simpl.
  - now rewrite Ascii.eqb_refl.
  - destruct (Ascii.eqb a c); [discriminate|].
    intros H. now rewrite (IH H).
Qed.

(** Splitting the join of pieces that hold no separator gives the
    pieces back. *)
Lemma split_join (c : ascii) (parts : list string) :
  parts <> [] -> Forall (fun p => count_char c p = 0) parts ->
  Py.split c (Py.join (String c "") parts) = parts.
Proof.
  intros Hne H. induction H as [|p parts Hp Hparts IH]; [congruence|].
  destruct parts as [|q parts]; [now apply split_free|].
  change (Py.join (String c "") (p :: q :: parts))
    with (p ++ String c (Py.join (String c "") (q :: parts)))%string.
  rewrite (split_app_sep c p _ Hp), IH; [reflexivity | discriminate].
Qed.

Lemma split_two (l f : string) :
  caret_free l -> caret_free f ->
  Py.split caret (l ++ "^" ++ f) = [l; f].
Proof.
  intros Hl Hf. apply (split_join caret [l; f]); [discriminate|].
  repeat constructor; assumption.
Qed.

Lemma split_three (l f m : string) :
  caret_free l -> caret_free f -> caret_free m ->
  Py.split caret (l ++ "^" ++ f ++ "^" ++ m) = [l; f; m].
Proof.
  intros Hl Hf Hm. apply (split_join caret [l; f; m]); [discriminate|].
  repeat constructor; assumption.
Qed.

(** ** More on createKey *)

Lemma createKey_error (s : string) (e : exn) :
  createKey s = Raise e -> e = name_error.
Proof.
  unfold createKey.
  destruct (List.length (Py.split caret (Py.lower s)) =? 2)%nat; [discriminate|].
  destruct (List.length (Py.split caret (Py.lower s)) =? 3)%nat; [discriminate|].
  now intros [= <-].
Qed.

(** A key is made of the first two pieces of the lower-cased name. *)
Lemma createKey_ok_form (s k : string) :
  createKey s = Ok k ->
  exists p0 p1 rest,
    Py.split caret (Py.lower s) = p0 :: p1 :: rest /\ List.length rest <= 1 /\
    k = (p0 ++ "^" ++ p1)%string.
Proof.
  unfold createKey.
  pose proof (join_split caret (Py.lower s)) as Hjoin.
  destruct (Py.split caret (Py.lower s)) as [|p0 [|p1 [|p2 [|p3 rest]]]];
    simpl; try discriminate; intros [= <-].
  - exists p0, p1, []. repeat split; [simpl; lia|]. now rewrite <- Hjoin.
  - exists p0, p1, [p2]. repeat split. simpl. lia.
Qed.

(** X1.  A key that [createKey] returns is in normal form: it is in lower
    case, it holds exactly one caret, and [createKey] maps it to itself. *)
Theorem createKey_normal_form (s k : string) :
  createKey s = Ok k ->
  Py.lower k = k /\ count_char caret k = 1 /\ createKey k = Ok k.
Proof.
  intros H.
  destruct (createKey_ok_form s k H) as (p0 & p1 & rest & Hs & _ & ->).
  assert (H0 : In p0 (Py.split caret (Py.lower s))) by (rewrite Hs; simpl; auto).
  assert (H1 : In p1 (Py.split caret (Py.lower s))) by (rewrite Hs; simpl; auto).
  assert (Hlow : Py.lower (p0 ++ "^" ++ p1) = (p0 ++ "^" ++ p1)%string).
  { rewrite !lower_app, (split_lower_pieces s p0 H0), (split_lower_pieces s p1 H1).
    reflexivity. }
  assert (Hsplit : Py.split caret (p0 ++ "^" ++ p1) = [p0; p1])
    by (apply split_two; eapply split_pieces_free; eassumption).
  split; [exact Hlow|]. split.
  - pose proof (split_length caret (p0 ++ "^" ++ p1)) as Hlen.
    rewrite Hsplit in Hlen. cbn [List.length] in Hlen. lia.
  - unfold createKey. rewrite Hlow, Hsplit. reflexivity.
Qed.

Lemma createKey_normal_form_witness :
  createKey "Pond^Amy^Jessica" = Ok "pond^amy" /\
  createKey "pond^amy" = Ok "pond^amy".
Proof.
  split; [reflexivity|].
  apply (createKey_normal_form "Pond^Amy^Jessica" "pond^amy"). reflexivity.
Defined.

(** X2.  For a last, a first and a middle name of ASCII characters
    without carets, the name with the middle name and the name without
    it have the same key, the lower-cased last and first names joined by
    a caret. *)
Theorem createKey_drops_middle (last first middle : string) :
  ascii_string last -> ascii_string first -> ascii_string middle ->
  caret_free last -> caret_free first -> caret_free middle ->
  createKey (last ++ "^" ++ first)
  = Ok (Py.lower last ++ "^" ++ Py.lower first)%string
  /\ createKey (last ++ "^" ++ first ++ "^" ++ middle)
     = Ok (Py.lower last ++ "^" ++ Py.lower first)%string.
Proof.
  intros _ _ _ Hl Hf Hm. unfold createKey. rewrite !split_lower.
  split.
  - rewrite (split_two last first Hl Hf). simpl. now rewrite !lower_app.
  - rewrite (split_three last first middle Hl Hf Hm). reflexivity.
Qed.

Lemma createKey_drops_middle_witness :
  createKey "POND^AMY" = Ok "pond^amy" /\
  createKey "POND^AMY^Jessica" = Ok "pond^amy".
Proof.
  apply (createKey_drops_middle "POND" "AMY" "Jessica"); reflexivity.
Defined.

(** X3.  Two names made of a last and a first name of ASCII characters
    without carets have the same key exactly when their last names agree
    up to case and their first names agree up to case: no two different
    persons share a key by accident. *)
Theorem createKey_same_key (last1 first1 last2 first2 : string) :
  ascii_string last1 -> ascii_string first1 ->
  ascii_string last2 -> ascii_string first2 ->
  caret_free last1 -> caret_free first1 ->
  caret_free last2 -> caret_free first2 ->
  (createKey (last1 ++ "^" ++ first1) = createKey (last2 ++ "^" ++ first2)
   <-> Py.lower last1 = Py.lower last2 /\ Py.lower first1 = Py.lower first2).
Proof.
  intros _ _ _ _ Hl1 Hf1 Hl2 Hf2.
  assert (Hk : forall l f, caret_free l -> caret_free f ->
             createKey (l ++ "^" ++ f) = Ok (Py.lower l ++ "^" ++ Py.lower f)%string).
  { intros l f Hl Hf. unfold createKey.
    rewrite split_lower, (split_two l f Hl Hf). simpl.
    now rewrite !lower_app. }
  rewrite (Hk _ _ Hl1 Hf1), (Hk _ _ Hl2 Hf2). split.
  - intros H.
    assert (E : Py.split caret (Py.lower last1 ++ "^" ++ Py.lower first1)
                = Py.split caret (Py.lower last2 ++ "^" ++ Py.lower first2))
      by congruence.
    rewrite !split_two in E by now apply caret_free_lower.
    now inversion E.
  - intros [-> ->]. reflexivity.
Qed.

Lemma createKey_same_key_witness :
  createKey "POND^AMY" = createKey "pond^Amy" /\
  createKey "POND^AMY" <> createKey "PON^DAMY".
Proof.
  split.
  - apply (createKey_same_key "POND" "AMY" "pond" "Amy"); try reflexivity.
    split; reflexivity.
  - intros H.
    apply (createKey_same_key "POND" "AMY" "PON" "DAMY") in H;
      try reflexivity.
    destruct H as [H _]. discriminate H.
Defined.

(** ** More on createDictionary *)

Lemma row_key_error (item : row) (e : exn) :
  row_key item = Raise e ->
  (List.length item < 2 /\ e = IndexError)
  \/ (2 <= List.length item /\ e = name_error).
Proof.
  unfold row_key.
  destruct item as [|id [|name rest]]; simpl.
  - intros [= <-]. left. split; [lia | reflexivity].
  - intros [= <-]. left. split; [lia | reflexivity].
  - intros H. right. split; [lia|]. now apply (createKey_error name).
Qed.

Lemma createDictionary_ok_rows (data : list row) (d : namesDict) :
  createDictionary data = Ok d -> Forall row_ok data.
Proof.
  intros H.
  destruct (rows_ok_or_first_bad data)
    as [Hok | (data1 & item & data2 & e & -> & H1 & He)]; [assumption|].
  unfold createDictionary in H.
  rewrite (createDictionary_loop_error data1 data2 item e [] H1 He) in H.
  discriminate H.
Qed.

(** X4.  When [createDictionary] raises, it raises the exception of the
    first row whose key cannot be computed: [IndexError] when that row
    has fewer than two fields, the exception of [createKey] otherwise.
    The lookup of the key just inserted never raises [KeyError]. *)
Theorem createDictionary_failure (data : list row) (e : exn) :
  createDictionary data = Raise e ->
  exists data1 item data2,
    data = data1 ++ item :: data2 /\
    Forall row_ok data1 /\
    row_key item = Raise e /\
    ((List.length item < 2 /\ e = IndexError)
     \/ (2 <= List.length item /\ e = name_error)).
Proof.
  intros H.
  destruct (rows_ok_or_first_bad data)
    as [Hok | (data1 & item & data2 & e' & -> & H1 & He)].
  - destruct (createDictionary_invariant data Hok) as (d & Hd & _).
    congruence.
  - unfold createDictionary in H.
    rewrite (createDictionary_loop_error data1 data2 item e' [] H1 He) in H.
    inversion H; subst e'.
    exists data1, item, data2. repeat split; try assumption.
    now apply row_key_error.
Qed.

Lemma createDictionary_failure_witness :
  exists data1 item data2,
    [["PID1"; "a^b"]; ["PID2"; "POND"]; ["PID3"]]
    = data1 ++ item :: data2 /\
    Forall row_ok data1 /\
    row_key item = Raise name_error /\
    ((List.length item < 2 /\ name_error = IndexError)
     \/ (2 <= List.length item /\ name_error = name_error)).
Proof.
  apply (createDictionary_failure
           [["PID1"; "a^b"]; ["PID2"; "POND"]; ["PID3"]] name_error).
  reflexivity.
Defined.

Lemma groups_le_rows (d : namesDict) :
  Forall (fun g => snd g <> []) d -> List.length d <= List.length (rows_of d).
Proof.
  induction 1 as [|[k v] d Hv _ IH]; [reflexivity|].
  rewrite rows_of_cons, length_app. simpl in *.
  destruct v; [congruence | simpl; lia].
Qed.

(** X5.  A table that [createDictionary] returns has no empty group; it
    has as many rows as the input and at most as many groups as the
    input has rows. *)
Theorem createDictionary_groups (data : list row) (d : namesDict) :
  createDictionary data = Ok d ->
  Forall (fun g => snd g <> []) d /\
  List.length (rows_of d) = List.length data /\
  List.length d <= List.length data.
Proof.
  intros H.
  pose proof (createDictionary_ok_rows data d H) as Hok.
  destruct (createDictionary_invariant data Hok) as (d0 & Hd0 & _ & _ & Hp).
  assert (d0 = d) by congruence. subst d0.
  assert (Hne : Forall (fun g => snd g <> []) d).
  { rewrite (createDictionary_grouped data Hok) in H. inversion H.
    unfold grouped. apply Forall_forall. intros g Hg.
    apply in_map_iff in Hg as (k & <- & Hk). simpl.
    apply first_seen_In, keys_of_In in Hk as (item & Hin & Hitem).
    intros Hnil.
    assert (Hf : In item (filter (has_key k) data))
      by (apply filter_In; split; [assumption | now apply has_key_true]).
    rewrite Hnil in Hf. contradiction. }
  split; [exact Hne|].
  pose proof (Permutation_length Hp) as Hlen.
  split; [exact Hlen|].
  rewrite <- Hlen. now apply groups_le_rows.
Qed.

Lemma createDictionary_groups_witness :
  exists d,
    createDictionary sample = Ok d /\
    Forall (fun g => snd g <> []) d /\
    List.length (rows_of d) = 4 /\ List.length d <= 4.
Proof.
  exists (grouped sample). split; [reflexivity|].
  apply (createDictionary_groups sample (grouped sample)). reflexivity.
Defined.

(** *** The table only grows *)

Lemma same_groups_extend (d : namesDict) :
  Forall2 (fun g g' => fst g' = fst g /\ exists more, snd g' = snd g ++ more)
          d d.
Proof.
  induction d as [|g d IH]; constructor; [|assumption].
  split; [reflexivity|]. exists []. now rewrite app_nil_r.
Qed.

Lemma extends_refl (d : namesDict) : extends d d.
Proof.
  exists d, []. split; [now rewrite app_nil_r | apply same_groups_extend].
Qed.

Lemma extends_trans (d1 d2 d3 : namesDict) :
  extends d1 d2 -> extends d2 d3 -> extends d1 d3.
Proof.
  intros (old & new & -> & H12) (old' & new' & -> & H23).
  apply Forall2_app_inv_l in H23 as (o1 & o2 & Ho1 & Ho2 & ->).
  exists o1, (o2 ++ new'). split; [now rewrite app_assoc|].
  clear - H12 Ho1. revert o1 Ho1.
  induction H12 as [|g g' d old [Hk [m Hm]] _ IH]; intros o1 Ho1.
  - inversion Ho1. constructor.
  - inversion Ho1 as [|? g'' ? o1' [Hk' [m' Hm']] Ho1']; subst.
    constructor; [|now apply IH].
    split; [congruence|]. exists (m ++ m').
    now rewrite Hm', Hm, app_assoc.
Qed.

Lemma add_item_extends (d d' : namesDict) (k : string) (item : row) :
  add_item d k item = Ok d' -> extends d d'.
Proof.
  intros H.
  destruct (add_item_cases d k item) as [(d1 & v & d2 & -> & _ & Ha) | [_ Ha]];
    rewrite Ha in H; inversion H; subst d'; clear H Ha.
  - eexists _, []. split; [now rewrite app_nil_r|].
    apply Forall2_app; [apply same_groups_extend|].
    constructor; [|apply same_groups_extend].
    split; [reflexivity|]. now exists [item].
  - exists d, [(k, [item])]. split; [reflexivity | apply same_groups_extend].
Qed.

Lemma createDictionary_loop_extends (data : list row) :
  forall d d', createDictionary_loop d data = Ok d' -> extends d d'.
Proof.
  induction data as [|item data IH]; intros d d' H.
  - inversion H. apply extends_refl.
  - rewrite createDictionary_loop_cons in H.
    destruct (row_key item) as [k|e]; [|discriminate].
    simpl in H. destruct (add_item d k item) as [d1|e] eqn:Ha; [|discriminate].
    simpl in H. apply (extends_trans d d1 d').
    + now apply (add_item_extends d d1 k item).
    + now apply IH.
Qed.

(** X6.  Reading more rows only adds to the table: the table of
    [data1 ++ data2] has the groups of the table of [data1] first, in the
    same order and under the same keys, each with its rows followed by
    further rows, and then the new groups. *)
Theorem createDictionary_grows (data1 data2 : list row) (d1 d : namesDict) :
  createDictionary data1 = Ok d1 ->
  createDictionary (data1 ++ data2) = Ok d ->
  extends d1 d.
Proof.
  unfold createDictionary. intros H1 H.
  rewrite createDictionary_loop_app, H1 in H. simpl in H.
  now apply (createDictionary_loop_extends data2).
Qed.

Lemma createDictionary_grows_witness :
  extends
    [("pond^amy", [["PID1"; "POND^AMY"]])]
    [("pond^amy", [["PID1"; "POND^AMY"]; ["PID3"; "Pond^Amy^J"]]);
     ("williams^rory", [["PID2"; "WILLIAMS^RORY"]])].
Proof.
  apply (createDictionary_grows
           [["PID1"; "POND^AMY"]]
           [["PID2"; "WILLIAMS^RORY"]; ["PID3"; "Pond^Amy^J"]]);
    reflexivity.
Defined.

(** ** More on the sort *)

Section SortedInput.
Context {A : Type}.
Implicit Types (x y : Z * A) (l : list (Z * A)).

Lemma insert_last x l :
  Forall (fun y => le_key y x) l -> Py.insert x l = l ++ [x].
Proof.
  induction 1 as [|y l Hy _ IH]; simpl; [reflexivity|].
  unfold le_key in Hy.
  destruct (fst x <? fst y)%Z eqn:E; [apply Z.ltb_lt in E; lia|].
  now rewrite IH.
Qed.

Lemma sorted_app_inv (R : Z * A -> Z * A -> Prop) l1 l2 :
  StronglySorted R (l1 ++ l2) ->
  StronglySorted R l1 /\ Forall (fun x => Forall (R x) l2) l1.
Proof.
  induction l1 as [|x l1 IH]; simpl; intros H.
  - split; constructor.
  - inversion H as [|? ? Hs Hx]; subst.
    destruct (IH Hs) as [H1 H2].
    apply Forall_app in Hx as [Hx1 Hx2].
    split; constructor; assumption.
Qed.

Lemma fold_insert_sorted l :
  forall sorted,
    StronglySorted le_key (sorted ++ l) ->
    fold_left (fun sorted x => Py.insert x sorted) l sorted = sorted ++ l.
Proof.
  induction l as [|x l IH]; intros sorted H; cbn [fold_left].
  - now rewrite app_nil_r.
  - destruct (sorted_app_inv le_key sorted (x :: l) H) as [_ Hle].
    rewrite insert_last.
    + rewrite IH; rewrite <- app_assoc; [reflexivity | exact H].
    + eapply Forall_impl; [|exact Hle].
      intros y Hy. now inversion Hy.
Qed.

(** The stable sort leaves a sorted list as it is. *)
Lemma stable_sort_sorted l :
  StronglySorted le_key l -> Py.stable_sort l = l.
Proof. intros H. now apply (fold_insert_sorted l []). Qed.
End SortedInput.

Lemma descending_keyed (kl : list (Z * row)) :
  Forall keyed kl -> descending (map snd kl) ->
  StronglySorted (fun x y => le_key y x) kl.
Proof.
  unfold descending. induction kl as [|x kl IH]; intros Hk Hs; [constructor|].
  inversion Hk as [|? ? Hx Hk']; subst. simpl in Hs.
  inversion Hs as [|? ? Hs' Hall]; subst.
  constructor; [now apply IH|].
  rewrite Forall_map in Hall. rewrite Forall_forall in *.
  intros y Hy. specialize (Hall y Hy). unfold le_key.
  rewrite (keyed_number x Hx), (keyed_number y (Hk' y Hy)) in Hall. lia.
Qed.

Lemma sort_reverse_descending (v : list row) :
  Forall (fun arr => exists n, pid_key arr = Ok n) v ->
  descending v ->
  Py.sort_reverse pid_key v = Ok v.
Proof.
  intros Hok Hdesc.
  destruct (compute_keys_spec pid_key v Hok) as (kl & Hkl & Hv & Hk).
  unfold Py.sort_reverse. rewrite Hkl. simpl.
  rewrite <- Hv in Hdesc.
  pose proof (StronglySorted_rev _ kl (descending_keyed kl Hk Hdesc)) as Hs.
  rewrite (stable_sort_sorted (rev kl) Hs), rev_involutive.
  now rewrite Hv.
Qed.

Lemma sortDictbyPidDesc_descending (dict : namesDict) :
  Forall (fun arr => exists n, pid_key arr = Ok n) (rows_of dict) ->
  Forall (fun g => descending (snd g)) dict ->
  sortDictbyPidDesc dict = Ok dict.
Proof.
  induction dict as [|[k v] dict IH]; intros Hok Hdesc; [reflexivity|].
  rewrite rows_of_cons in Hok. apply Forall_app in Hok as [Hv Hd].
  inversion Hdesc as [|? ? Hdv Hdd]; subst. simpl in *.
  now rewrite (sort_reverse_descending v Hv Hdv), (IH Hd Hdd).
Qed.

Lemma sortDictbyPidDesc_ok_rows (dict sorted : namesDict) :
  sortDictbyPidDesc dict = Ok sorted ->
  Forall (fun arr => exists n, pid_key arr = Ok n) (rows_of dict).
Proof.
  intros H. destruct (pid_key_cases (rows_of dict)) as [Hok|Hbad]; [assumption|].
  destruct (sortDictbyPidDesc_error dict Hbad) as (arr & e & _ & _ & He).
  congruence.
Qed.

Lemma sortDictbyPidDesc_ok_inv (dict sorted : namesDict) :
  sortDictbyPidDesc dict = Ok sorted ->
  map fst sorted = map fst dict /\ Forall2 group_sorted dict sorted.
Proof.
  intros H.
  destruct (sortDictbyPidDesc_spec dict (sortDictbyPidDesc_ok_rows _ _ H))
    as (sorted' & Hs & Hk & Hg).
  assert (sorted' = sorted) by congruence. subst. auto.
Qed.

Lemma group_sorted_rows (dict sorted : namesDict) :
  Forall2 group_sorted dict sorted ->
  Permutation (rows_of dict) (rows_of sorted).
Proof.
  induction 1 as [|[k v] [k' v'] d d' (_ & Hp & _) _ IH]; [reflexivity|].
  rewrite !rows_of_cons. simpl in Hp. now apply Permutation_app.
Qed.

Lemma group_sorted_descending (dict sorted : namesDict) :
  Forall2 group_sorted dict sorted ->
  Forall (fun g => descending (snd g)) sorted.
Proof.
  induction 1 as [|g g' d d' (_ & _ & Hd & _) _ IH]; constructor; assumption.
Qed.

(** X7.  A table whose groups are already by descending number, for
    instance a table with one row in each group, is returned as it is. *)
Theorem sortDictbyPidDesc_sorted (dict : namesDict) :
  Forall (fun arr => exists n, pid_key arr = Ok n) (rows_of dict) ->
  Forall (fun g => descending (snd g)) dict ->
  sortDictbyPidDesc dict = Ok dict.
Proof. apply sortDictbyPidDesc_descending. Qed.

Lemma sortDictbyPidDesc_sorted_witness :
  sortDictbyPidDesc
    [("a^b", [["PID9"; "a^b"]; ["PID7"; "A^B"]; ["PID07"; "a^b^c"]]);
     ("c^d", [["PID8"; "c^d"]])]
  = Ok [("a^b", [["PID9"; "a^b"]; ["PID7"; "A^B"]; ["PID07"; "a^b^c"]]);
        ("c^d", [["PID8"; "c^d"]])].
Proof.
  apply sortDictbyPidDesc_sorted.
  - unfold rows_of. simpl. repeat constructor; eexists; reflexivity.
  - repeat constructor; vm_compute; discriminate.
Defined.

(** X8.  Sorting is idempotent: a table that [sortDictbyPidDesc] has
    returned is returned unchanged when it is sorted again. *)
Theorem sortDictbyPidDesc_idempotent (dict sorted : namesDict) :
  sortDictbyPidDesc dict = Ok sorted ->
  sortDictbyPidDesc sorted = Ok sorted.
Proof.
  intros H.
  destruct (sortDictbyPidDesc_ok_inv dict sorted H) as [_ Hg].
  apply sortDictbyPidDesc_descending.
  - apply (Permutation_Forall (group_sorted_rows dict sorted Hg)).
    now apply (sortDictbyPidDesc_ok_rows dict sorted).
  - now apply (group_sorted_descending dict).
Qed.

Lemma sortDictbyPidDesc_idempotent_witness :
  sortDictbyPidDesc
    [("a^b", [["PID9"; "a^b"]; ["PID+7"; "A^B"]; ["PID7"; "a^b^c"];
              ["PID1"; "a^b"]])]
  = Ok [("a^b", [["PID9"; "a^b"]; ["PID+7"; "A^B"]; ["PID7"; "a^b^c"];
                 ["PID1"; "a^b"]])].
Proof.
  apply (sortDictbyPidDesc_idempotent
           [("a^b", [["PID1"; "a^b"]; ["PID+7"; "A^B"]; ["PID9"; "a^b"];
                     ["PID7"; "a^b^c"]])]).
  reflexivity.
Defined.

(** X9.  When [sortDictbyPidDesc] raises, some row of the table has a
    number that cannot be computed and the exception is the one of such a
    row: [IndexError] for a row without fields, [ValueError] for a row
    whose ID is no integer literal after its first three characters. *)
Theorem sortDictbyPidDesc_failure (dict : namesDict) (e : exn) :
  sortDictbyPidDesc dict = Raise e ->
  exists arr,
    In arr (rows_of dict) /\ pid_key arr = Raise e /\
    ((arr = [] /\ e = IndexError) \/ (arr <> [] /\ e = ValueError)).
Proof.
  intros H.
  destruct (pid_key_cases (rows_of dict)) as [Hok|Hbad].
  - destruct (sortDictbyPidDesc_spec dict Hok) as (sorted & Hs & _).
    congruence.
  - destruct (sortDictbyPidDesc_error dict Hbad) as (arr & e' & Hin & He & Hs).
    assert (e' = e) by congruence. subst e'.
    exists arr. split; [assumption|]. split; [assumption|].
    destruct arr as [|pid fields].
    + left. split; [reflexivity|]. now inversion He.
    + right. split; [discriminate|].
      unfold pid_key in He. simpl in He. now apply (int_error _ _ He).
Qed.

Lemma sortDictbyPidDesc_failure_witness :
  exists arr,
    In arr (rows_of [("a^b", [["PID1"; "a^b"]; []])]) /\
    pid_key arr = Raise IndexError /\
    ((arr = [] /\ IndexError = IndexError)
     \/ (arr <> [] /\ IndexError = ValueError)).
Proof.
  apply (sortDictbyPidDesc_failure [("a^b", [["PID1"; "a^b"]; []])] IndexError).
  reflexivity.
Defined.

(** ** More on the reports *)

Lemma report_from_length (d : namesDict) :
  forall counter,
    List.length (report_from counter d)
    = List.length d + List.length (rows_of d).
Proof.
  induction d as [|[k v] d IH]; intros counter; [reflexivity|].
  cbn [report_from]. rewrite rows_of_cons. cbn [List.length].
  rewrite !length_app, length_map, IH. unfold row. lia.
Qed.

Lemma report_from_sorted (dict sorted : namesDict) :
  Forall2 group_sorted dict sorted ->
  forall counter,
    Permutation (report_from counter dict) (report_from counter sorted).
Proof.
  induction 1 as [|[k v] [k' v'] d d' (_ & Hp & _) _ IH]; intros counter;
    [reflexivity|].
  cbn [report_from]. constructor. simpl in Hp.
  apply Permutation_app; [now apply Permutation_map | apply IH].
Qed.

(** X10.  [printOutput] prints one line for each group and one for each
    row, after what was printed before; so a run that ends normally has
    printed twice the number of groups and rows, and the marker line. *)
Theorem run_output_length (data : list row) (out : stdout) :
  run data = (out, Ok tt) ->
  exists d,
    createDictionary data = Ok d /\
    (forall before,
        exists lines,
          printOutput d before = (before ++ lines, Ok tt) /\
          List.length lines = List.length d + List.length data) /\
    List.length out = 2 * (List.length d + List.length data) + 1.
Proof.
  rewrite run_cases.
  destruct (createDictionary data) as [d|e] eqn:Hd; [|discriminate].
  destruct (sortDictbyPidDesc d) as [d'|e] eqn:Hs; [|discriminate].
  intros [= <-]. exists d. split; [reflexivity|].
  destruct (createDictionary_invariant data (createDictionary_ok_rows _ _ Hd))
    as (d0 & Hd0 & _ & _ & Hp).
  assert (d0 = d) by congruence. subst d0.
  pose proof (Permutation_length Hp) as Hrows.
  destruct (sortDictbyPidDesc_ok_inv d d' Hs) as [Hk Hg].
  pose proof (Permutation_length (group_sorted_rows d d' Hg)) as Hrows'.
  assert (Hlen : List.length d' = List.length d)
    by (rewrite <- (length_map fst d'), Hk; apply length_map).
  split.
  - intros before. exists (report d). split; [apply printOutput_lines|].
    unfold report. rewrite report_from_length. lia.
  - rewrite length_app. cbn [List.length]. unfold report.
    rewrite !report_from_length. lia.
Qed.

Lemma run_output_length_witness :
  exists d,
    createDictionary sample = Ok d /\
    (forall before,
        exists lines,
          printOutput d before = (before ++ lines, Ok tt) /\
          List.length lines = List.length d + List.length sample) /\
    List.length (fst (run sample)) = 2 * (List.length d + List.length sample) + 1.
Proof.
  apply (run_output_length sample (fst (run sample))). reflexivity.
Defined.

(** X11.  The second report holds the lines of the first one in another
    order: sorting changes no line, adds none and drops none. *)
Theorem sorted_report_same_lines (dict sorted : namesDict) :
  sortDictbyPidDesc dict = Ok sorted ->
  Permutation (report dict) (report sorted) /\
  List.length (report sorted) = List.length (report dict).
Proof.
  intros H.
  destruct (sortDictbyPidDesc_ok_inv dict sorted H) as [_ Hg].
  pose proof (report_from_sorted dict sorted Hg 0) as Hp.
  split; [exact Hp | symmetry; now apply Permutation_length].
Qed.

Lemma sorted_report_same_lines_witness :
  Permutation
    ["0:"; "PID1,a^b"; "PID3,A^B"; "1:"; "PID2,c^d"]
    ["0:"; "PID3,A^B"; "PID1,a^b"; "1:"; "PID2,c^d"].
Proof.
  apply (sorted_report_same_lines
           [("a^b", [["PID1"; "a^b"]; ["PID3"; "A^B"]]);
            ("c^d", [["PID2"; "c^d"]])]
           [("a^b", [["PID3"; "A^B"]; ["PID1"; "a^b"]]);
            ("c^d", [["PID2"; "c^d"]])]).
  reflexivity.
Defined.

(** ** Grouping, then sorting *)

(** X12.  On rows whose keys and numbers can all be computed, grouping
    and then sorting gives a table that still partitions the input: the
    keys are those of the input in order of first occurrence, the group
    of a key holds exactly the input rows of that key, by descending
    number, and all rows together are the input rows. *)
Theorem sorted_table_partition (data : list row) :
  Forall row_ok data ->
  Forall (fun arr => exists n, pid_key arr = Ok n) data ->
  exists d sorted,
    createDictionary data = Ok d /\
    sortDictbyPidDesc d = Ok sorted /\
    map fst sorted = first_seen (keys_of data) /\
    Permutation (rows_of sorted) data /\
    Forall (fun g => Permutation (snd g) (filter (has_key (fst g)) data)
                     /\ descending (snd g)) sorted.
Proof.
  intros Hok Hpid.
  destruct (createDictionary_invariant data Hok) as (d & Hd & _ & _ & Hp).
  pose proof (createDictionary_grouped data Hok) as Hgr.
  assert (d = grouped data) by congruence. subst d.
  assert (Hrows : Forall (fun arr => exists n, pid_key arr = Ok n)
                         (rows_of (grouped data)))
    by (apply (Permutation_Forall (Permutation_sym Hp)); exact Hpid).
  destruct (sortDictbyPidDesc_spec (grouped data) Hrows)
    as (sorted & Hs & Hk & Hg).
  exists (grouped data), sorted.
  split; [assumption|]. split; [assumption|]. split; [|split].
  - rewrite Hk. unfold grouped. rewrite map_map. simpl. apply map_id.
  - rewrite <- (group_sorted_rows _ _ Hg). exact Hp.
  - clear - Hg. unfold grouped in Hg.
    remember (first_seen (keys_of data)) as ks eqn:E. clear E.
    revert sorted Hg. induction ks as [|k ks IH]; intros sorted Hg;
      inversion Hg as [|? g' ? sorted' (Hfst & Hperm & Hdesc & _) Hrest];
      subst; constructor.
    + simpl in *. rewrite Hfst. split; [now symmetry | assumption].
    + now apply IH.
Qed.

Lemma sorted_table_partition_witness :
  exists d sorted,
    createDictionary sample = Ok d /\
    sortDictbyPidDesc d = Ok sorted /\
    map fst sorted = first_seen (keys_of sample) /\
    Permutation (rows_of sorted) sample /\
    Forall (fun g => Permutation (snd g) (filter (has_key (fst g)) sample)
                     /\ descending (snd g)) sorted.
Proof.
  apply (sorted_table_partition sample);
    unfold sample; repeat constructor; eexists; reflexivity.
Defined.

(** *** The sorted order and the input order *)

Lemma descending_unique (l1 : list row) :
  forall l2,
    descending l1 -> descending l2 -> Permutation l1 l2 ->
    NoDup (map pid_number l1) -> l1 = l2.
Proof.
  unfold descending.
  induction l1 as [|a l1 IH]; intros l2 H1 H2 Hp Hnd.
  - apply Permutation_nil in Hp. now subst.
  - destruct l2 as [|b l2];
      [apply Permutation_sym, Permutation_nil in Hp; discriminate|].
    inversion H1 as [|? ? H1' Ha]; subst.
    inversion H2 as [|? ? H2' Hb]; subst.
    simpl in Hnd. inversion Hnd as [|? ? Hnot Hnd']; subst.
    assert (a = b) as <-.
    { destruct (list_eq_dec string_dec a b) as [E|Hne]; [assumption|].
      assert (Hain : In a l2).
      { pose proof (Permutation_in a Hp (or_introl eq_refl)) as [E|Hin];
          [congruence | assumption]. }
      assert (Hbin : In b l1).
      { pose proof (Permutation_in b (Permutation_sym Hp) (or_introl eq_refl))
          as [E|Hin]; [congruence | assumption]. }
      rewrite Forall_forall in Ha, Hb.
      pose proof (Ha b Hbin). pose proof (Hb a Hain).
      destruct Hnot. replace (pid_number a) with (pid_number b) by lia.
      now apply in_map. }
    f_equal. apply IH; try assumption.
    now apply Permutation_cons_inv with (a := a).
Qed.

(** X13.  When the numbers of the rows of a group are all different, the
    sorted group does not depend on the order in which the rows came:
    two lists with the same rows are sorted to the same list. *)
Theorem sort_reverse_order_independent (v1 v2 : list row) :
  Forall (fun arr => exists n, pid_key arr = Ok n) v1 ->
  NoDup (map pid_number v1) ->
  Permutation v1 v2 ->
  Py.sort_reverse pid_key v1 = Py.sort_reverse pid_key v2.
Proof.
  intros Hok Hnd Hp.
  destruct (sort_reverse_rows v1 Hok) as (s1 & -> & Hp1 & Hd1 & _).
  destruct (sort_reverse_rows v2 (Permutation_Forall Hp Hok))
    as (s2 & -> & Hp2 & Hd2 & _).
  f_equal. apply descending_unique; try assumption.
  - now rewrite <- Hp1, Hp.
  - apply (Permutation_NoDup (Permutation_map pid_number Hp1)). exact Hnd.
Qed.

Lemma sort_reverse_order_independent_witness :
  Py.sort_reverse pid_key [["PID1"; "a^b"]; ["PID12"; "a^b"]; ["PID3"; "a^b"]]
  = Py.sort_reverse pid_key [["PID3"; "a^b"]; ["PID1"; "a^b"]; ["PID12"; "a^b"]].
Proof.
  apply sort_reverse_order_independent.
  - repeat constructor; eexists; reflexivity.
  - vm_compute. repeat constructor; simpl; intuition discriminate.
  - apply Permutation_sym, Permutation_cons_append with (l := [_; _]).
Defined.

(** ** More on extractNumber *)

Lemma slice_from_app (p s : string) :
  Py.slice_from (String.length p) (p ++ s) = s.
Proof. induction p as [|c p IH]; [now destruct s | exact IH]. Qed.

Lemma slice_from_short (n : nat) (s : string) :
  String.length s <= n -> Py.slice_from n s = "".
Proof.
  revert s. induction n as [|n IH]; intros s H.
  - destruct s; [reflexivity | simpl in H; lia].
  - destruct s as [|c s]; [reflexivity|]. simpl in *. apply IH. lia.
Qed.

(** X14.  [extractNumber] does not look at the first three characters,
    whatever they are, and an ID of at most three characters raises
    [ValueError]; it never raises [IndexError]. *)
Theorem extractNumber_prefix :
  (forall p s, String.length p = 3 ->
               extractNumber (p ++ s) = extractNumber ("PID" ++ s))
  /\ (forall str, String.length str <= 3 ->
                  extractNumber str = Raise ValueError)
  /\ (forall str, extractNumber str <> Raise IndexError).
Proof.
  split; [|split].
  - intros p s Hp. unfold extractNumber.
    rewrite <- Hp at 1. now rewrite slice_from_app.
  - intros str H. unfold extractNumber.
    now rewrite (slice_from_short 3 str H).
  - intros str H. apply int_error in H. discriminate H.
Qed.

Lemma extractNumber_prefix_witness :
  extractNumber "XYZ12" = extractNumber "PID12" /\
  extractNumber "PID" = Raise ValueError.
Proof.
  destruct extractNumber_prefix as (H1 & H2 & _). split.
  - apply (H1 "XYZ" "12"). reflexivity.
  - apply H2. simpl. lia.
Defined.

(** ** More on a run *)

(** X16.  A run that is stopped by an exception has either printed
    nothing, and the exception is [IndexError] or the exception of
    [createKey], or it has printed the first report and the marker line,
    and the exception is [ValueError].  No other exception ends a run. *)
Theorem run_failure (data : list row) (out : stdout) (e : exn) :
  run data = (out, Raise e) ->
  (out = [] /\ createDictionary data = Raise e /\
   (e = IndexError \/ e = name_error))
  \/ (e = ValueError /\
      exists d, createDictionary data = Ok d /\ out = report d ++ [marker]).
Proof.
  rewrite run_cases.
  destruct (createDictionary data) as [d|e'] eqn:Hd.
  - destruct (sortDictbyPidDesc d) as [d'|e''] eqn:Hs; [discriminate|].
    intros [= <- <-]. right.
    pose proof (createDictionary_ok_rows data d Hd) as Hok.
    destruct (createDictionary_invariant data Hok) as (d0 & Hd0 & _ & _ & Hp).
    assert (d0 = d) by congruence. subst d0.
    destruct (pid_key_cases (rows_of d)) as [Hall|Hbad].
    + destruct (sortDictbyPidDesc_spec d Hall) as (s & Hs' & _). congruence.
    + destruct (sortDictbyPidDesc_error d Hbad) as (arr & e & Hin & He & Hs').
      assert (e'' = e) by congruence. subst e''.
      split; [|now exists d].
      apply (pid_key_error arr); [|assumption].
      rewrite Forall_forall in Hok. apply Hok.
      now apply (Permutation_in _ Hp).
  - intros [= <- <-]. left. split; [reflexivity|]. split; [reflexivity|].
    unfold createDictionary in Hd.
    destruct (rows_ok_or_first_bad data)
      as [Hok | (data1 & item & data2 & e & -> & H1 & He)].
    + destruct (createDictionary_invariant data Hok) as (d & Hd' & _).
      unfold createDictionary in Hd'. congruence.
    + rewrite (createDictionary_loop_error data1 data2 item e [] H1 He) in Hd.
      inversion Hd; subst e'.
      destruct (row_key_error item e He) as [[_ ->] | [_ ->]]; auto.
Qed.

Lemma run_failure_witness :
  ([] = @nil string /\
   createDictionary [["PID1"; "a^b"]; ["PID2"]] = Raise IndexError /\
   (IndexError = IndexError \/ IndexError = name_error))
  \/ (IndexError = ValueError /\
      exists d, createDictionary [["PID1"; "a^b"]; ["PID2"]] = Ok d /\
                [] = report d ++ [marker]).
Proof.
  apply (run_failure [["PID1"; "a^b"]; ["PID2"]] [] IndexError). reflexivity.
Defined.

Lemma report_from_app (d1 d2 : namesDict) :
  forall counter,
    report_from counter (d1 ++ d2)
    = report_from counter d1 ++ report_from (counter + List.length d1) d2.
Proof.
  induction d1 as [|[k v] d1 IH]; intros counter; simpl.
  - now rewrite Nat.add_0_r.
  - rewrite IH, <- app_assoc, Nat.add_succ_comm. reflexivity.
Qed.

(** X17.  The index printed above a group is the number of groups before
    it in the table, whatever its key: [printOutput] prints the groups
    before it, then that index with a colon, then the rows of the group,
    each with its fields joined by commas, then the groups after it. *)
Theorem printOutput_group (d1 d2 : namesDict) (k : string) (v : list row)
        (out : stdout) :
  printOutput (d1 ++ (k, v) :: d2) out
  = (out ++ report d1
         ++ [(Py.str_of_nat (List.length d1) ++ ":")%string]
         ++ map (Py.join ",") v
         ++ report_from (S (List.length d1)) d2,
     Ok tt).
Proof.
  rewrite printOutput_lines. unfold report.
  rewrite report_from_app. reflexivity.
Qed.
